(** * torchns: nested sampling with slice-sampling proposals

    A shallow embedding of [src/torchns/ns.py] (class [NestedSampler]) and
    the properties of its dead-point archive, proposal kernel, whitener and
    resampling utilities.

    Numeric model.  Tensors of floats are lists of real numbers ([R] of the
    Standard Library); rounding is not modelled.  The infinities the source
    writes down ([-np.inf], [np.inf]) are kept apart from the finite values
    in [xreal]; the likelihood oracle is a function into [R] (finite values).
    Exceptions are values of [error] in the [result] monad.  The random
    generators are explicit tapes threaded through the calls that draw. *)

From Stdlib Require Import Reals Lra Lia List Arith ZArith Bool.
Import ListNotations.

Set Implicit Arguments.
Local Open Scope R_scope.

(** ** Exceptions *)

Inductive error : Type :=
| AttributeError      (* an attribute of [self] read before it is set *)
| AssertionError      (* the [assert] of [__init__] *)
| KeyError            (* [raise KeyError("Bound unknown")] *)
| EmptyReduction      (* [min()] / [max()] of a tensor without elements *)
| ShapeError          (* [view], [stack] on a tensor of the wrong shape *)
| IndexError          (* an index past the end of a tensor *)
| LinAlgError         (* [torch.linalg.cholesky] failed to factorise *)
| EmptyCat            (* [torch.cat] of a list without tensors *)
| ZeroDivisionError   (* [//] by zero *)
| SamplingError.      (* [torch.multinomial] asked for no sample *)

Inductive result (A : Type) : Type :=
| Ok (a : A)
| Err (e : error).

Arguments Ok {A} a.
Arguments Err {A} e.

Definition bind {A B : Type} (c : result A) (k : A -> result B) : result B :=
  match c with
  | Ok a => k a
  | Err e => Err e
  end.

Declare Scope result_scope.
Delimit Scope result_scope with result.
Notation "x <- c ;; k" := (bind c (fun x => k))
  (at level 61, c at next level, right associativity) : result_scope.
Notation "' p <- c ;; k" := (bind c (fun x => let p := x in k))
  (at level 61, p pattern, c at next level, right associativity) : result_scope.
Local Open Scope result_scope.

Definition is_err {A : Type} (c : result A) : bool :=
  match c with Ok _ => false | Err _ => true end.

(** ** Reals with the two infinities *)

Inductive xreal : Type :=
| NegInf
| Fin (r : R)
| PosInf.

(** [x < y] on [xreal], as a boolean. *)
Definition Rltb (x y : R) : bool := if Rlt_dec x y then true else false.
Definition Rleb (x y : R) : bool := if Rle_dec x y then true else false.

Definition xltb (x y : xreal) : bool :=
  match x, y with
  | NegInf, NegInf => false
  | NegInf, _ => true
  | Fin a, Fin b => Rltb a b
  | Fin _, PosInf => true
  | Fin _, NegInf => false
  | PosInf, _ => false
  end.

Definition xleb (x y : xreal) : bool := negb (xltb y x).

(** ** Tensors *)

Definition point := list R.          (* one row of a [B x D] tensor *)
Definition matrix := list (list R).  (* rows *)

(** [t.min()] and [t.max()]: the reduction of a tensor without elements
    raises. *)
Fixpoint vmin (x : R) (l : list R) : R :=
  match l with
  | [] => x
  | y :: l' => Rmin x (vmin y l')
  end.

Fixpoint vmax (x : R) (l : list R) : R :=
  match l with
  | [] => x
  | y :: l' => Rmax x (vmax y l')
  end.

Definition tensor_min (t : list R) : result R :=
  match t with
  | [] => Err EmptyReduction
  | x :: l => Ok (vmin x l)
  end.

Definition tensor_max (t : list R) : result R :=
  match t with
  | [] => Err EmptyReduction
  | x :: l => Ok (vmax x l)
  end.

(** [np.argmin]: the index of the first occurrence of the minimum. *)
Fixpoint argmin_from (x : R) (l : list R) : nat :=
  match l with
  | [] => O
  | y :: l' => if Rle_dec x (vmin y l') then O else S (argmin_from y l')
  end.

Definition np_argmin (t : list R) : nat :=
  match t with
  | [] => O
  | x :: l => argmin_from x l
  end.

(** [t[i]] and [t[i] = v]. *)
Definition get {A : Type} (t : list A) (i : nat) : result A :=
  match nth_error t i with
  | Some a => Ok a
  | None => Err IndexError
  end.

Fixpoint set_at {A : Type} (t : list A) (i : nat) (v : A) : list A :=
  match t, i with
  | [], _ => []
  | _ :: t', O => v :: t'
  | a :: t', S i' => a :: set_at t' i' v
  end.

(** Python's builtin [sum], which starts from [0] and adds from the left. *)
Definition py_sum (t : list R) : R := fold_left Rplus t 0.

(** ** The driver's candidate loop ([nested_sampling], lines 145-161) *)

(** The local variables of [nested_sampling] that the loop updates. *)
Record RunState : Type := mkRun {
  run_X_live : list point;
  run_L_live : list R;
  run_V : R;
  run_samples_X : list point;
  run_samples_logl : list R;
  run_samples_logv : list R;
  run_samples_Z : list R;
  run_samples_logwt : list R;
  run_Z : R;
  run_Z_rest : xreal
}.

(** The body of the [if] at line 146: the minimum live point is retired
    into the archive and overwritten by the candidate [(x_new, l_new)]. *)
Definition replace_step (NLP : nat) (x_new : point) (l_new : R)
    (st : RunState) : result RunState :=
  let idx_min := np_argmin (run_L_live st) in
  Lmin <- get (run_L_live st) idx_min ;;
  Xmin <- get (run_X_live st) idx_min ;;
  let sX := run_samples_X st ++ [Xmin] in
  let slogl := run_samples_logl st ++ [Lmin] in
  let slogv := run_samples_logv st ++ [ln (run_V st)] in
  let L_live := set_at (run_L_live st) idx_min l_new in
  let X_live := set_at (run_X_live st) idx_min x_new in
  let V := run_V st * (1 - 1 / INR NLP) in
  let dZ := V / INR NLP * exp Lmin in
  let sZ := run_samples_Z st ++ [dZ] in
  let slogwt := run_samples_logwt st ++ [Lmin + ln (V / INR NLP)] in
  let Z := run_Z st + dZ in
  Lmax <- tensor_max L_live ;;
  Ok (mkRun X_live L_live V sX slogl slogv sZ slogwt Z (Fin (V * exp Lmax))).

(** A candidate's log-likelihood is [None] when it still holds the [-inf]
    that [_gen_new_samples] starts from (line 70). *)
Definition candidate := (point * option R)%type.

(** [for i in range(len(X_new))]: candidates are taken in order; the first
    one that does not beat the current minimum ends the loop. *)
Fixpoint process_candidates (NLP : nat) (cands : list candidate)
    (st : RunState) : result RunState :=
  match cands with
  | [] => Ok st
  | (x_new, l_new) :: rest =>
      m <- tensor_min (run_L_live st) ;;
      match l_new with
      | Some l =>
          if Rlt_dec m l then
            st' <- replace_step NLP x_new l st ;;
            process_candidates NLP rest st'
          else Ok st
      | None => Ok st
      end
  end.

(** ** Linear algebra used by the whitener *)

(** [t.sum()] of torch. *)
Definition tensor_sum (t : list R) : R := fold_right Rplus 0 t.

Definition dot (u v : list R) : R :=
  tensor_sum (map (fun p => fst p * snd p) (combine u v)).

Definition vadd (u v : list R) : list R :=
  map (fun p => fst p + snd p) (combine u v).

Definition entry (A : matrix) (i j : nat) : R := nth j (nth i A []) 0.

Definition tabulate (n m : nat) (f : nat -> nat -> R) : matrix :=
  map (fun i => map (fun j => f i j) (seq 0 m)) (seq 0 n).

(** Number of columns of a [B x D] tensor with at least one row. *)
Definition ncols (X : list point) : nat :=
  match X with
  | [] => O
  | p :: _ => length p
  end.

(** Sums over the indices below [n], the first index peeled off first. *)
Fixpoint sumR (n : nat) (f : nat -> R) : R :=
  match n with
  | O => 0
  | S n' => f O + sumR n' (fun i => f (S i))
  end.

(** Square matrices of size [n] as functions of the two indices; only the
    indices below [n] matter. *)
Definition fmat := nat -> nat -> R.

Definition fmat_symmetric (n : nat) (A : fmat) : Prop :=
  forall i j, (i < n)%nat -> (j < n)%nat -> A i j = A j i.

(** The quadratic form [x^T A x]. *)
Definition qform (n : nat) (A : fmat) (x : nat -> R) : R :=
  sumR n (fun i => sumR n (fun j => x i * A i j * x j)).


Definition nonzero_vec (n : nat) (x : nat -> R) : Prop :=
  exists i, (i < n)%nat /\ x i <> 0.

(** Strict positive-definiteness. *)
Definition pos_def (n : nat) (A : fmat) : Prop :=
  forall x, nonzero_vec n x -> 0 < qform n A x.


Definition lower_triangular (n : nat) (L : fmat) : Prop :=
  forall i j, (i < j)%nat -> (j < n)%nat -> L i j = 0.

(** [(L L^T) i j]. *)
Definition LLt (n : nat) (L : fmat) (i j : nat) : R :=
  sumR n (fun k => L i k * L j k).

(** The Cholesky factorisation ([torch.linalg.cholesky], LAPACK [potrf]):
    the first column is divided by the square root of the pivot and the
    factorisation goes on with the Schur complement of the pivot; it stops
    with a failure at the first pivot that is not positive. *)
Definition schur (A : fmat) : fmat :=
  fun i j =>
    A (S i) (S j) - A (S i) O / sqrt (A O O) * (A (S j) O / sqrt (A O O)).

(** The factor with first column [l :: w] and the factor [L'] of the Schur
    complement below and to the right of it. *)
Definition extend_factor (l : R) (w : nat -> R) (L' : fmat) : fmat :=
  fun i j =>
    match i, j with
    | O, O => l
    | O, S _ => 0
    | S i', O => w i'
    | S i', S j' => L' i' j'
    end.

Fixpoint chol (n : nat) (A : fmat) : option fmat :=
  match n with
  | O => Some (fun _ _ => 0)
  | S n' =>
      if Rlt_dec 0 (A O O) then
        match chol n' (schur A) with
        | Some L' =>
            Some (extend_factor (sqrt (A O O))
                    (fun i => A (S i) O / sqrt (A O O)) L')
        | None => None
        end
      else None
  end.

Definition linalg_cholesky (A : matrix) : result matrix :=
  let n := length A in
  match chol n (entry A) with
  | Some L => Ok (tabulate n n L)
  | None => Err LinAlgError
  end.

(** [torch.cov(X.T)]: rows of [X] are observations, columns are variables;
    the unbiased estimate divides by [M - 1].  With fewer than two
    observations that divisor is zero and every entry is NaN: [None]. *)
Definition column (X : list point) (j : nat) : list R :=
  map (fun p => nth j p 0) X.

Definition mean (v : list R) : R := tensor_sum v / INR (length v).

Definition cov_entry (X : list point) (i j : nat) : R :=
  let mi := mean (column X i) in
  let mj := mean (column X j) in
  tensor_sum (map (fun p => (nth i p 0 - mi) * (nth j p 0 - mj)) X)
  / (INR (length X) - 1).

Definition torch_cov (X : list point) : option matrix :=
  if (length X <=? 1)%nat then None
  else Some (tabulate (ncols X) (ncols X) (cov_entry X)).

(** [cov - 2 * mineig * torch.eye(len(cov))]. *)
Definition shift_diag (cov : matrix) (mineig : R) : matrix :=
  let n := length cov in
  tabulate n n (fun i j =>
    entry cov i j - 2 * mineig * (if Nat.eqb i j then 1 else 0)).

Section Whitener.

(** [torch.linalg.eigvalsh]: the eigenvalues of a symmetric matrix.  The
    routine is external; what is assumed of it is stated where it is used. *)
Variable eigvalsh : matrix -> list R.

(** The [try] / [except] of [_calc_Lchol] (lines 241-248). *)
Definition Lchol_of_cov (cov : matrix) : result matrix :=
  match linalg_cholesky cov with
  | Ok L => Ok L
  | Err LinAlgError =>
      mineig <- tensor_min (eigvalsh cov) ;;
      linalg_cholesky (shift_diag cov mineig)
  | Err e => Err e
  end.

(** [_calc_Lchol].  A single variable makes [torch.cov] return a scalar,
    which [torch.linalg.cholesky] rejects outright; NaN entries fail both
    factorisations. *)
Definition _calc_Lchol (X : list point) : result matrix :=
  if (ncols X =? 1)%nat then Err ShapeError
  else
    match torch_cov X with
    | None => Err LinAlgError
    | Some cov => Lchol_of_cov cov
    end.

End Whitener.

(** ** Random generators *)

(** The draws of [torch.randn], [torch.rand] and [np.random.choice] come
    from three tapes; a cursor per tape records what has been consumed. *)
Record rng : Type := mkRng {
  randn_tape : nat -> R;
  rand_tape : nat -> R;
  choice_tape : nat -> nat;
  randn_pos : nat;
  rand_pos : nat;
  choice_pos : nat
}.

Definition torch_randn (n : nat) (g : rng) : list R * rng :=
  (map (fun k => randn_tape g (randn_pos g + k)) (seq 0 n),
   mkRng (randn_tape g) (rand_tape g) (choice_tape g)
         (randn_pos g + n) (rand_pos g) (choice_pos g)).

Definition torch_rand (n : nat) (g : rng) : list R * rng :=
  (map (fun k => rand_tape g (rand_pos g + k)) (seq 0 n),
   mkRng (randn_tape g) (rand_tape g) (choice_tape g)
         (randn_pos g) (rand_pos g + n) (choice_pos g)).

(** [np.random.choice(range(n), size, replace=True)]. *)
Definition np_random_choice (n size : nat) (g : rng) : list nat * rng :=
  (map (fun k => Nat.modulo (choice_tape g (choice_pos g + k)) n) (seq 0 size),
   mkRng (randn_tape g) (rand_tape g) (choice_tape g)
         (randn_pos g) (rand_pos g) (choice_pos g + size)).

(** [torch.multinomial(wt, N, replacement=True)]: each draw is a uniform
    variate located in the cumulative weights; no sample can be asked for
    zero draws. *)
Fixpoint pick (u : R) (w : list R) : nat :=
  match w with
  | [] => O
  | x :: w' => if Rlt_dec u x then O else S (pick (u - x) w')
  end.

Definition torch_multinomial (wt : list R) (N : nat) (g : rng)
  : result (list nat * rng) :=
  if (N =? 0)%nat then Err SamplingError
  else
    let (us, g') := torch_rand N g in
    Ok (map (fun u => pick (u * tensor_sum wt) wt) us, g').

(** Rows of a row-major block of [B * D] draws. *)
Fixpoint rows_of (B D : nat) (l : list R) : list (list R) :=
  match B with
  | O => []
  | S B' => firstn D l :: rows_of B' D (skipn D l)
  end.

(** ** The proposal kernel *)

(** [_inbound_unitcube]. *)
Definition _inbound_unitcube (X : point) : bool :=
  forallb (fun x => Rleb x 1) X && forallb (fun x => Rleb 0 x) X.

(** [_get_directions]: [B] random unit vectors of dimension [D]. *)
Definition unit_direction (t : point) : point :=
  let l := sqrt (tensor_sum (map (fun x => x ^ 2) t)) in
  map (fun x => x / l) t.

Definition _get_directions (B D : nat) (g : rng) : list point * rng :=
  let (t, g') := torch_randn (B * D) g in
  (map unit_direction (rows_of B D t), g').

(** [_get_slice_sample_points]: per chain the bracket [lo, hi] and the
    offsets recorded so far. *)
Record bracket : Type := mkBracket {
  lo : R;
  hi : R;
  offsets : list R
}.

Definition slice_draw (u : R) (b : bracket) : bracket :=
  let x := u * (hi b - lo b) + lo b in
  mkBracket (if Rlt_dec x 0 then x else lo b)
            (if Rlt_dec 0 x then x else hi b)
            (offsets b ++ [x]).

Fixpoint slice_loop (S B : nat) (chains : list bracket) (g : rng)
  : list bracket * rng :=
  match S with
  | O => (chains, g)
  | Datatypes.S S' =>
      let (u, g') := torch_rand B g in
      slice_loop S' B
        (map (fun p => slice_draw (fst p) (snd p)) (combine u chains)) g'
  end.

Definition _get_slice_sample_points (B S : nat) (g : rng)
  : list (list R) * rng :=
  let (chains, g') := slice_loop S B (repeat (mkBracket (-1) 1 []) B) g in
  (map offsets chains, g').

(** [torch.argmax] of a row of integers: the index of the first maximal
    value. *)
Fixpoint zmax (x : Z) (l : list Z) : Z :=
  match l with
  | [] => x
  | y :: l' => Z.max x (zmax y l')
  end.

Fixpoint argmax_from (x : Z) (l : list Z) : nat :=
  match l with
  | [] => O
  | y :: l' => if (zmax y l' <=? x)%Z then O else S (argmax_from y l')
  end.

Definition torch_argmax (t : list Z) : nat :=
  match t with
  | [] => O
  | x :: l => argmax_from x l
  end.

Definition b2z (b : bool) : Z := if b then 1%Z else 0%Z.

(** The working state of one chain: position, log-likelihood ([None] is the
    initial [-inf]) and the counter of accepted steps. *)
Record chain : Type := mkChain {
  cX : point;
  clogl : option R;
  cC : nat
}.

Section Kernel.

Variable eigvalsh : matrix -> list R.
Variable inbound : point -> bool.   (* [self._inbound] *)
Variable logl_fn : point -> R.      (* the likelihood oracle, row by row *)

(** The proposals of one chain: [X + (n * l) Lchol^T] for each offset [l]
    of the chain, in the order of the offsets (lines 74-76). *)
Definition proposals (Lchol : matrix) (X n : point) (L : list R)
  : list point :=
  map (fun l =>
         let dX_uniform := map (fun nd => nd * l) n in
         vadd X (map (fun row => dot dX_uniform row) Lchol))
      L.

(** Row of [accept_matrix] (line 81). *)
Definition accept_row (logl_th : xreal) (pX : list point) : list bool :=
  map (fun p => xltb logl_th (Fin (logl_fn p)) && inbound p) pX.

(** Lines 81-88 for one chain. *)
Definition select_step (logl_th : xreal) (pX : list point) (c : chain)
  : chain :=
  let accept := accept_row logl_th pX in
  let idx := torch_argmax (map b2z accept) in
  let nX := nth idx pX [] in
  let logl_selected := logl_fn nX in
  let accept_any := (0 <? fold_right Z.add 0%Z (map b2z accept))%Z in
  if accept_any then mkChain nX (Some logl_selected) (S (cC c)) else c.

(** One pass of the loop over [range(num_steps)].  Without chains or
    without candidates per slice the [view] of line 79 has no element to
    reshape and raises. *)
Definition kernel_step (Lchol : matrix) (logl_th : xreal)
    (max_step_size : R) (samples_per_slice : nat)
    (chains : list chain) (g : rng) : result (list chain * rng) :=
  let B := length chains in
  let D := ncols (map cX chains) in
  let (N, g1) := _get_directions B D g in
  let (L0, g2) := _get_slice_sample_points B samples_per_slice g1 in
  let L := map (map (fun x => x * max_step_size)) L0 in
  if (B =? 0)%nat || (samples_per_slice =? 0)%nat then Err ShapeError
  else
    Ok (map (fun t =>
               let '(c, n, l) := t in
               select_step logl_th (proposals Lchol (cX c) n l) c)
            (combine (combine chains N) L),
        g2).

Fixpoint kernel_loop (steps : nat) (Lchol : matrix) (logl_th : xreal)
    (max_step_size : R) (samples_per_slice : nat)
    (chains : list chain) (g : rng) : result (list chain * rng) :=
  match steps with
  | O => Ok (chains, g)
  | S k =>
      '(chains', g') <-
        kernel_step Lchol logl_th max_step_size samples_per_slice chains g ;;
      kernel_loop k Lchol logl_th max_step_size samples_per_slice chains' g'
  end.

(** The whitening factor [_gen_new_samples] works with (lines 65-66). *)
Definition whitening_factor (X_seeds : list point) (Lchol : option matrix)
  : result matrix :=
  match Lchol with
  | Some L => Ok L
  | None => _calc_Lchol eigvalsh X_seeds
  end.

(** [_gen_new_samples]. *)
Definition _gen_new_samples (X_seeds : list point) (logl_th : xreal)
    (num_steps : nat) (max_step_size : R) (samples_per_slice : nat)
    (Lchol : option matrix) (g : rng) : result (list candidate * rng) :=
  L <- whitening_factor X_seeds Lchol ;;
  let chains := map (fun x => mkChain x None O) X_seeds in
  '(chains', g') <-
    kernel_loop num_steps L logl_th max_step_size samples_per_slice chains g ;;
  Ok (map (fun c => (cX c, clogl c))
          (filter (fun c => (cC c =? num_steps)%nat) chains'),
      g').

End Kernel.

(** ** The sampler object *)

(** The four sequences [nested_sampling] stores on [self] when it ends. *)
Record Archive : Type := mkArchive {
  samples_X : list point;
  samples_logv : list R;
  samples_logl : list R;
  samples_logwt : list R
}.

(** [self].  [archive] is [None] until [nested_sampling] has set the
    [samples_*] attributes. *)
Record NestedSampler : Type := mkSampler {
  X_init : list point;
  X_live : list point;
  L_live : option (list R);
  _inbound : point -> bool;
  archive : option Archive
}.

Inductive bound_arg : Type :=
| Unitcube                         (* the string ["unitcube"] *)
| Callable (f : point -> bool)
| OtherBound.                      (* anything else *)

(** [__init__]. *)
Definition NestedSampler_init (X0 : list point) (L_init : option (list R))
    (bound : bound_arg) : result NestedSampler :=
  inb <- match bound with
         | Unitcube => Ok _inbound_unitcube
         | Callable f => Ok f
         | OtherBound => Err KeyError
         end ;;
  if forallb inb X0 then Ok (mkSampler X0 X0 L_init inb None)
  else Err AssertionError.

(** ** The driver *)

(** The keyword arguments of [nested_sampling]. *)
Record ns_args : Type := mkArgs {
  logl_th_max : xreal;
  max_steps : nat;
  num_batch_samples : nat;
  epsilon : R;
  max_step_size : R;
  samples_per_slice : nat;
  num_steps : nat
}.

Definition default_ns_args : ns_args :=
  mkArgs PosInf (100 * 1000) 200 (1 / 1000000) 1 10 5.

Inductive flow : Type := Continue | Break.

Section Driver.

Variable eigvalsh : matrix -> list R.
Variable logl_fn : point -> R.
Variable self : NestedSampler.
Variable args : ns_args.

(** One pass of [for i in pbar] (lines 127-163); the progress bar is left
    out. *)
Definition ns_iteration (NLP B : nat) (st : RunState) (g : rng)
  : result (flow * RunState * rng) :=
  let (idx_batch, g1) := np_random_choice NLP B g in
  let X_batch := map (fun i => nth i (run_X_live st) []) idx_batch in
  logl_th <- tensor_min (run_L_live st) ;;
  if xltb (logl_th_max args) (Fin logl_th) then Ok (Break, st, g1)
  else
    Lchol <- _calc_Lchol eigvalsh (run_X_live st) ;;
    '(cands, g2) <-
      _gen_new_samples eigvalsh (_inbound self) logl_fn X_batch (Fin logl_th)
        (num_steps args) (max_step_size args) (samples_per_slice args)
        (Some Lchol) g1 ;;
    st' <- process_candidates NLP cands st ;;
    if xltb (run_Z_rest st') (Fin (run_Z st' * epsilon args))
    then Ok (Break, st', g2)
    else Ok (Continue, st', g2).

Fixpoint ns_loop (steps NLP B : nat) (st : RunState) (g : rng)
  : result (RunState * rng) :=
  match steps with
  | O => Ok (st, g)
  | S k =>
      '(fl, st', g') <- ns_iteration NLP B st g ;;
      match fl with
      | Break => Ok (st', g')
      | Continue => ns_loop k NLP B st' g'
      end
  end.

(** The state the loop starts from (lines 103-119). *)
Definition initial_state : RunState :=
  let X := X_live self in
  let L := match L_live self with
           | Some L => L
           | None => map logl_fn X
           end in
  mkRun X L 1 [] [] [] [] [] 0 PosInf.

(** [nested_sampling]: the run, then the attributes set on [self]. *)
Definition nested_sampling (g : rng) : result (NestedSampler * rng) :=
  let NLP := length (X_live self) in
  let B := Nat.min (num_batch_samples args) NLP in
  '(st, g') <- ns_loop (max_steps args) NLP B initial_state g ;;
  Ok (mkSampler (X_init self) (run_X_live st) (Some (run_L_live st))
        (_inbound self)
        (Some (mkArchive (run_samples_X st) (run_samples_logv st)
                 (run_samples_logl st) (run_samples_logwt st))),
      g').

End Driver.

(** ** Importance resampling *)

(** [int(x)] for a float that is not negative. *)
Definition py_int (x : R) : nat := Z.to_nat (Int_part x).

Definition the_archive (self : NestedSampler) : result Archive :=
  match archive self with
  | Some a => Ok a
  | None => Err AttributeError
  end.

(** [t[idx]] for a tensor of indices. *)
Fixpoint index_all {A : Type} (t : list A) (idx : list nat)
  : result (list A) :=
  match idx with
  | [] => Ok []
  | i :: idx' =>
      a <- get t i ;;
      r <- index_all t idx' ;;
      Ok (a :: r)
  end.

(** [t[mask]]. *)
Definition masked {A : Type} (t : list A) (mask : list bool) : list A :=
  map fst (filter snd (combine t mask)).

(** [torch.cat]. *)
Definition torch_cat {A : Type} (ts : list (list A)) : result (list A) :=
  match ts with
  | [] => Err EmptyCat
  | _ => Ok (concat ts)
  end.

(** [sum(wt) ** 2 / sum(wt ** 2)]. *)
Definition neff_of (wt : list R) : R :=
  py_sum wt ^ 2 / py_sum (map (fun w => w ^ 2) wt).

Section Resampler.

Variable eigvalsh : matrix -> list R.
Variable self : NestedSampler.

(** [get_posterior_neff]. *)
Definition get_posterior_neff : result R :=
  a <- the_archive self ;;
  let logwt := samples_logwt a in
  m <- tensor_max logwt ;;
  let wt := map (fun x => exp (x - m)) logwt in
  let wt := map (fun w => w / tensor_sum wt) wt in
  Ok (neff_of wt).

(** [get_posterior_samples]. *)
Definition get_posterior_samples (N : option nat) (g : rng)
  : result (list point * list R * rng) :=
  N <- match N with
       | Some n => Ok n
       | None => n_eff <- get_posterior_neff ;; Ok (py_int n_eff)
       end ;;
  a <- the_archive self ;;
  let logwt := samples_logwt a in
  m <- tensor_max logwt ;;
  let wt := map (fun x => exp (x - m)) logwt in
  let wt := map (fun w => w / tensor_sum wt) wt in
  '(idx, g') <- torch_multinomial wt N g ;;
  Xs <- index_all (samples_X a) idx ;;
  Ls <- index_all (samples_logl a) idx ;;
  Ok (Xs, Ls, g').

(** [get_constrained_prior_neff]. *)
Definition get_constrained_prior_neff (min_logl : xreal) : result R :=
  a <- the_archive self ;;
  let logv := samples_logv a in
  let logl := samples_logl a in
  let mask := map (fun l => xleb min_logl (Fin l)) logl in
  m <- tensor_max (masked logv mask) ;;
  let wt := map (fun x => exp (x - m)) (masked logv mask) in
  Ok (neff_of wt).

(** [get_constrained_prior_samples]. *)
Definition get_constrained_prior_samples (N : option nat) (min_logl : xreal)
    (g : rng) : result (list point * list R * rng) :=
  N <- match N with
       | Some n => Ok n
       | None =>
           n_eff <- get_constrained_prior_neff min_logl ;; Ok (py_int n_eff)
       end ;;
  a <- the_archive self ;;
  let logv := samples_logv a in
  let logl := samples_logl a in
  let mask := map (fun l => xleb min_logl (Fin l)) logl in
  m <- tensor_max (masked logv mask) ;;
  let wt := map (fun x => exp (x - m)) (masked logv mask) in
  '(idx, g') <- torch_multinomial wt N g ;;
  Xs <- index_all (masked (samples_X a) mask) idx ;;
  Ls <- index_all (masked (samples_logl a) mask) idx ;;
  Ok (Xs, Ls, g').

(** The loop of [generate_constrained_prior_samples] (lines 184-190): one
    call of [_gen_new_samples] per slice of [batch_size] seeds, with the
    defaults [max_step_size=1.0], [samples_per_slice=5] and no [Lchol]. *)
Fixpoint batches_loop (logl_fn : point -> R) (X_seeds : list point)
    (min_logl : xreal) (batch_size num_steps : nat) (batches : list nat)
    (g : rng) : result (list (list point) * list (list (option R)) * rng) :=
  match batches with
  | [] => Ok ([], [], g)
  | i :: rest =>
      let X_batch := firstn batch_size (skipn (i * batch_size) X_seeds) in
      '(new, g1) <-
        _gen_new_samples eigvalsh (_inbound self) logl_fn X_batch min_logl
          num_steps 1 5 None g ;;
      '(Xs, Ls, g2) <-
        batches_loop logl_fn X_seeds min_logl batch_size num_steps rest g1 ;;
      Ok (map fst new :: Xs, map snd new :: Ls, g2)
  end.

(** [generate_constrained_prior_samples]. *)
Definition generate_constrained_prior_samples (logl_fn : point -> R)
    (N : nat) (min_logl : xreal) (batch_size num_steps : nat) (g : rng)
  : result (list point * list (option R) * rng) :=
  '(X_seeds, _, g1) <- get_constrained_prior_samples (Some N) min_logl g ;;
  Lchol <- _calc_Lchol eigvalsh X_seeds ;;
  if (batch_size =? 0)%nat then Err ZeroDivisionError
  else
    '(X_samples, L_samples, g2) <-
      batches_loop logl_fn X_seeds min_logl batch_size num_steps
        (seq 0 (N / batch_size)) g1 ;;
    X <- torch_cat X_samples ;;
    L <- torch_cat L_samples ;;
    Ok (X, L, g2).

End Resampler.

(** ** Bookkeeping invariant of the run *)

(** The enclosed volume after [k] replacements in a population of [N]. *)
Definition volume_after (N k : nat) : R := (1 - 1 / INR N) ^ k.

(** What holds of the driver's variables between two candidates: the
    population keeps its size, the archive sequences grow together, the
    current volume and the logged ones follow [volume_after], and records
    exist only for populations of two points or more. *)
Definition run_invariant (NLP : nat) (st : RunState) : Prop :=
  let k := length (run_samples_logv st) in
  length (run_X_live st) = NLP /\
  run_V st = volume_after NLP k /\
  length (run_samples_logl st) = k /\
  length (run_samples_logwt st) = k /\
  length (run_samples_X st) = k /\
  (forall i, (i < k)%nat ->
     nth i (run_samples_logv st) 0 = ln (volume_after NLP i)) /\
  (forall i, (i < k)%nat ->
     nth i (run_samples_logwt st) 0 =
     nth i (run_samples_logl st) 0 + ln (volume_after NLP (S i) / INR NLP)) /\
  (k = O \/ (2 <= NLP)%nat).

(** The test of line 146: the candidate's log-likelihood is above the
    current minimum of the live population. *)
Definition exceeds_minimum (c : candidate) (st : RunState) : Prop :=
  exists m l,
    tensor_min (run_L_live st) = Ok m /\ snd c = Some l /\ m < l.

(** Number of records in the archive under construction. *)
Definition records (st : RunState) : nat := length (run_samples_X st).

(** ** Acceptance in the kernel *)

(** [l > logl_th] for a finite [l]. *)
Definition above (logl_th : xreal) (l : R) : Prop :=
  match logl_th with
  | NegInf => True
  | Fin t => t < l
  | PosInf => False
  end.

(** A candidate is acceptable when its log-likelihood is strictly above the
    threshold and the boundary predicate holds of it. *)
Definition acceptable (inbound : point -> bool) (logl_fn : point -> R)
    (logl_th : xreal) (p : point) : Prop :=
  above logl_th (logl_fn p) /\ inbound p = true.

(** [p], at position [s], is the first acceptable candidate of [pX]. *)
Definition first_acceptable (inbound : point -> bool) (logl_fn : point -> R)
    (logl_th : xreal) (pX : list point) (s : nat) (p : point) : Prop :=
  nth_error pX s = Some p /\
  acceptable inbound logl_fn logl_th p /\
  forall j q, (j < s)%nat -> nth_error pX j = Some q ->
              ~ acceptable inbound logl_fn logl_th q.

(** How one slice-sampling step relates a chain [c] to its successor [c'],
    given the candidates [pX] generated for the chain, in generation order. *)
Definition slice_step_rel (inbound : point -> bool) (logl_fn : point -> R)
    (logl_th : xreal) (pX : list point) (c c' : chain) : Prop :=
  (exists s p,
      first_acceptable inbound logl_fn logl_th pX s p /\
      c' = mkChain p (Some (logl_fn p)) (S (cC c)))
  \/
  ((forall p, In p pX -> ~ acceptable inbound logl_fn logl_th p) /\ c' = c).

(** [L] is a Cholesky factor of [A]: lower-triangular, with a positive
    diagonal, and [L L^T = A]. *)
Definition cholesky_factor (n : nat) (A L : fmat) : Prop :=
  lower_triangular n L /\
  (forall i, (i < n)%nat -> 0 < L i i) /\
  (forall i j, (i < n)%nat -> (j < n)%nat -> LLt n L i j = A i j).

(** ** A closed-form instance of [eigvalsh] *)

(** The eigenvalues of a symmetric [2 x 2] matrix, in ascending order, read
    from its lower triangle. *)
Definition eigvalsh_2x2 (A : matrix) : list R :=
  let a := entry A 0 0 in
  let b := entry A 1 0 in
  let c := entry A 1 1 in
  let s := sqrt ((a - c) ^ 2 + 4 * b ^ 2) in
  [(a + c - s) / 2; (a + c + s) / 2].

(** ** Empty archives *)

(** An archive without records. *)
Definition archive_empty (a : Archive) : Prop :=
  samples_X a = [] /\ samples_logv a = [] /\
  samples_logl a = [] /\ samples_logwt a = [].

(** ** A small run *)

(** Three live points in the unit square, the oracle [x + y], one seed per
    pass, one slice step with one candidate, a single pass of the main loop.
    The uniform draw [1/2] puts the candidate at the seed itself. *)
Definition demo_X : list point := [[0; 0]; [1; 0]; [0; 1]].

Definition demo_logl (p : point) : R := nth 0 p 0 + nth 1 p 0.

Definition demo_self : NestedSampler :=
  mkSampler demo_X demo_X (Some [0; 1; 1]) _inbound_unitcube None.

Definition demo_args : ns_args := mkArgs PosInf 1 1 (1 / 1000000) 1 1 1.

Definition demo_rng : rng :=
  mkRng (fun _ => 1) (fun _ => 1 / 2) (fun _ => 1%nat) 0 0 0.

(** The archive the small run ends with: the point [(0, 0)] retired at
    volume one. *)
Definition demo_archive : Archive :=
  mkArchive [[0; 0]] [ln 1] [0] [0 + ln (1 * (1 - 1 / INR 3) / INR 3)].



(** A batch of three candidates for the small run: the first beats the
    minimum, the second does not, the third would. *)
Definition demo_candidates : list candidate :=
  [([1; 0], Some 1); ([1; 0], Some 0); ([1; 0], Some 5)].

(** A sampler whose archive holds the three points of [demo_X] at equal
    log-volume, and a generator whose uniform draws select each of them
    once. *)
Definition archived_self : NestedSampler :=
  mkSampler demo_X demo_X (Some [0; 1; 1]) _inbound_unitcube
    (Some (mkArchive demo_X [0; 0; 0] [0; 1; 1] [0; 0; 0])).

Definition spread_rng : rng :=
  mkRng (fun _ => 1)
        (fun k => match k with O => 0 | S O => 1 / 2 | _ => 5 / 6 end)
        (fun _ => O) 0 0 0.

(** The arguments of a run that makes no pass of the main loop. *)
Definition idle_args : ns_args := mkArgs PosInf 0 1 (1 / 1000000) 1 1 1.

(** The sampler such a run leaves: an archive without records. *)
Definition idle_self : NestedSampler :=
  mkSampler demo_X demo_X (Some [0; 1; 1]) _inbound_unitcube
    (Some (mkArchive [] [] [] [])).

(** ** Further invariants *)

(** What [_gen_new_samples] keeps of a chain after [k] passes: at most [k]
    accepted steps; no accepted step, and the log-likelihood is still the
    initial [-inf]; one at least, and it is the oracle's value at the
    position, which is acceptable. *)
Definition chain_inv (inbound : point -> bool) (logl_fn : point -> R)
    (logl_th : xreal) (k : nat) (c : chain) : Prop :=
  (cC c <= k)%nat /\
  (cC c = O -> clogl c = None) /\
  ((1 <= cC c)%nat ->
   clogl c = Some (logl_fn (cX c)) /\
   acceptable inbound logl_fn logl_th (cX c)).

(** A candidate whose log-likelihood, when it has one, is the oracle's
    value at a point within bounds. *)
Definition sound_candidate (inbound : point -> bool) (logl_fn : point -> R)
    (c : candidate) : Prop :=
  forall l, snd c = Some l -> l = logl_fn (fst c) /\ inbound (fst c) = true.

(** [t] is non-decreasing. *)
Definition nondecreasing (t : list R) : Prop :=
  forall i j, (i <= j)%nat -> (j < length t)%nat -> nth i t 0 <= nth j t 0.

(** The offsets of one chain close in on zero from both sides: an offset
    on the negative side is a lower bound of all later offsets, one on the
    positive side an upper bound. *)
Definition shrinking (t : list R) : Prop :=
  forall i j, (i < j)%nat -> (j < length t)%nat ->
    (nth i t 0 < 0 -> nth i t 0 <= nth j t 0) /\
    (0 < nth i t 0 -> nth j t 0 <= nth i t 0).

(** What [_get_slice_sample_points] keeps of a bracket: it contains zero
    and lies in [-1, 1], and it has shrunk onto the recorded offsets. *)
Definition bracket_inv (b : bracket) : Prop :=
  (-1 <= lo b <= 0 /\ 0 <= hi b <= 1) /\
  Forall (fun x => -1 <= x <= 1 /\
                   (x < 0 -> x <= lo b) /\ (0 < x -> hi b <= x))
         (offsets b) /\
  shrinking (offsets b).

(** ** Further small samplers *)

(** Arguments whose log-likelihood ceiling lies below every value of
    [demo_logl] on [demo_X]. *)
Definition early_args : ns_args := mkArgs (Fin (-1)) 1 1 (1 / 1000000) 1 1 1.

(** A population of a single point, and one of points on a line. *)
Definition lone_self : NestedSampler :=
  mkSampler [[0; 0]] [[0; 0]] (Some [0]) _inbound_unitcube None.

Definition line_self : NestedSampler :=
  mkSampler [[0]; [1]] [[0]; [1]] (Some [0; 1]) _inbound_unitcube None.

(** The sampler [__init__] builds on [demo_X] without initial
    log-likelihoods. *)
Definition fresh_self : NestedSampler :=
  mkSampler demo_X demo_X None _inbound_unitcube None.

(** * Properties *)

Unset Implicit Arguments.

(** ** Reductions and indexing *)

Tactic Notation "inv_bind" hyp(H) "as" ident(x) ident(E) :=
  match type of H with
  | bind ?c _ = Ok _ =>
      destruct c as [x | ?] eqn:E; simpl in H; [ | discriminate H ]
  end.

Lemma vmin_lower_bound (x : R) (l : list R) (y : R) :
  In y (x :: l) -> vmin x l <= y.
Proof.
  revert x; induction l as [ | z l IH]; intros x Hin; simpl in *.
  - destruct Hin as [-> | []]; lra.
  - destruct Hin as [-> | Hin].
    + apply Rmin_l.
    + eapply Rle_trans; [ apply Rmin_r | apply IH; exact Hin ].
Qed.

Lemma vmin_In (x : R) (l : list R) : In (vmin x l) (x :: l).
Proof.
  revert x; induction l as [ | z l IH]; intros x; simpl.
  - now left.
  - destruct (Rle_dec x (vmin z l)) as [H | H].
    + rewrite Rmin_left by exact H. now left.
    + rewrite Rmin_right by lra. right. apply IH.
Qed.

Lemma vmin_greatest (x : R) (l : list R) (b : R) :
  (forall y, In y (x :: l) -> b <= y) -> b <= vmin x l.
Proof. intros H. apply H, vmin_In. Qed.

Lemma vmax_upper_bound (x : R) (l : list R) (y : R) :
  In y (x :: l) -> y <= vmax x l.
Proof.
  revert x; induction l as [ | z l IH]; intros x Hin; simpl in *.
  - destruct Hin as [-> | []]; lra.
  - destruct Hin as [-> | Hin].
    + apply Rmax_l.
    + eapply Rle_trans; [ apply IH; exact Hin | apply Rmax_r ].
Qed.

Lemma argmin_from_nth (x : R) (l : list R) :
  nth_error (x :: l) (argmin_from x l) = Some (vmin x l).
Proof.
  revert x; induction l as [ | z l IH]; intros x; simpl.
  - reflexivity.
  - destruct (Rle_dec x (vmin z l)) as [H | H]; simpl.
    + now rewrite Rmin_left.
    + rewrite Rmin_right by lra. apply IH.
Qed.

(** [np.argmin] returns the first index that holds the minimum. *)
Lemma argmin_from_first (x : R) (l : list R) (j : nat) (y : R) :
  (j < argmin_from x l)%nat -> nth_error (x :: l) j = Some y ->
  vmin x l < y.
Proof.
  revert x j; induction l as [ | z l IH]; intros x j Hj Hy; simpl in *.
  - lia.
  - destruct (Rle_dec x (vmin z l)) as [H | H]; [ lia | ].
    rewrite Rmin_right by lra.
    destruct j as [ | j]; simpl in Hy.
    + injection Hy as <-. lra.
    + apply (IH z j); [ lia | exact Hy ].
Qed.

Lemma get_argmin (t : list R) (m : R) :
  tensor_min t = Ok m -> get t (np_argmin t) = Ok m.
Proof.
  destruct t as [ | x l]; simpl; [ discriminate | ].
  intros H; injection H as <-.
  unfold get. now rewrite argmin_from_nth.
Qed.

Lemma set_at_length {A : Type} (t : list A) (i : nat) (v : A) :
  length (set_at t i v) = length t.
Proof.
  revert i; induction t as [ | a t IH]; intros [ | i]; simpl; auto.
Qed.

Lemma set_at_In {A : Type} (t : list A) (i : nat) (v y : A) :
  In y (set_at t i v) -> y = v \/ In y t.
Proof.
  revert i; induction t as [ | a t IH]; intros [ | i]; simpl; auto.
  - intros [<- | H]; auto.
  - intros [<- | H]; auto. destruct (IH _ H); auto.
Qed.

Lemma set_at_nth_same {A : Type} (t : list A) (i : nat) (v : A) :
  (i < length t)%nat -> nth_error (set_at t i v) i = Some v.
Proof.
  revert i; induction t as [ | a t IH]; intros [ | i]; simpl; intros H;
    try lia; auto.
  apply IH; lia.
Qed.

Lemma tensor_min_set_at (t : list R) (i : nat) (v m : R) :
  tensor_min t = Ok m -> m <= v ->
  exists m', tensor_min (set_at t i v) = Ok m' /\ m <= m'.
Proof.
  intros Hm Hv.
  destruct t as [ | x l]; [ discriminate | ].
  simpl in Hm; injection Hm as <-.
  destruct (set_at (x :: l) i v) as [ | x' l'] eqn:E.
  - apply (f_equal (@length R)) in E. rewrite set_at_length in E.
    discriminate.
  - exists (vmin x' l'). split; [ reflexivity | ].
    apply vmin_greatest. intros y Hy. rewrite <- E in Hy.
    apply set_at_In in Hy. destruct Hy as [-> | Hy]; [ exact Hv | ].
    now apply vmin_lower_bound.
Qed.

(** ** One replacement *)

(** What [replace_step] does, field by field. *)
Lemma replace_step_inv (NLP : nat) (x_new : point) (l_new : R)
    (st st' : RunState) :
  replace_step NLP x_new l_new st = Ok st' ->
  exists Lmin Xmin,
    get (run_L_live st) (np_argmin (run_L_live st)) = Ok Lmin /\
    get (run_X_live st) (np_argmin (run_L_live st)) = Ok Xmin /\
    run_L_live st' = set_at (run_L_live st) (np_argmin (run_L_live st)) l_new /\
    run_X_live st' = set_at (run_X_live st) (np_argmin (run_L_live st)) x_new /\
    run_V st' = run_V st * (1 - 1 / INR NLP) /\
    run_samples_X st' = run_samples_X st ++ [Xmin] /\
    run_samples_logl st' = run_samples_logl st ++ [Lmin] /\
    run_samples_logv st' = run_samples_logv st ++ [ln (run_V st)] /\
    run_samples_Z st' =
      run_samples_Z st ++ [run_V st' / INR NLP * exp Lmin] /\
    run_samples_logwt st' =
      run_samples_logwt st ++ [Lmin + ln (run_V st' / INR NLP)] /\
    run_Z st' = run_Z st + run_V st' / INR NLP * exp Lmin.
Proof.
  unfold replace_step. intros H.
  inv_bind H as Lmin EL. inv_bind H as Xmin EX. inv_bind H as Lmax EM.
  injection H as <-. simpl.
  exists Lmin, Xmin. repeat split; reflexivity.
Qed.

Lemma replace_step_count (NLP : nat) (x_new : point) (l_new : R)
    (st st' : RunState) :
  replace_step NLP x_new l_new st = Ok st' ->
  length (run_samples_X st') = S (length (run_samples_X st)).
Proof.
  intros H. apply replace_step_inv in H.
  destruct H as (Lmin & Xmin & _ & _ & _ & _ & _ & HX & _).
  rewrite HX, length_app. simpl. lia.
Qed.

Lemma nth_app_last (l : list R) (a : R) (i : nat) :
  nth i (l ++ [a]) 0 = if (i <? length l)%nat then nth i l 0
                       else if (i =? length l)%nat then a else 0.
Proof.
  destruct (Nat.ltb_spec i (length l)) as [H | H].
  - now apply app_nth1.
  - rewrite app_nth2 by exact H.
    destruct (Nat.eqb_spec i (length l)) as [-> | Hne].
    + now rewrite Nat.sub_diag.
    + destruct (i - length l)%nat as [ | [ | d]] eqn:E; simpl; auto; lia.
Qed.

Lemma replace_step_invariant (NLP : nat) (x_new : point) (l_new : R)
    (st st' : RunState) :
  (2 <= NLP)%nat ->
  run_invariant NLP st ->
  replace_step NLP x_new l_new st = Ok st' ->
  run_invariant NLP st'.
Proof.
  intros HN (HX & HV & Hl & Hw & HsX & Hlogv & Hlogwt & _) H.
  apply replace_step_inv in H.
  destruct H as (Lmin & Xmin & _ & _ & EL & EX & EV & EsX & Esl & Esv
                 & _ & Esw & _).
  unfold run_invariant.
  rewrite EX, EV, EsX, Esl, Esv, Esw, !length_app, set_at_length. simpl.
  set (k := length (run_samples_logv st)) in *.
  repeat split; try lia.
  - rewrite HV. unfold volume_after.
    replace (k + 1)%nat with (S k) by lia. simpl. ring.
  - intros i Hi. rewrite nth_app_last. fold k.
    destruct (Nat.ltb_spec i k) as [Hlt | Hge]; [ apply Hlogv; exact Hlt | ].
    replace i with k by lia. rewrite Nat.eqb_refl. now rewrite HV.
  - intros i Hi. rewrite !nth_app_last. rewrite Hw, Hl.
    destruct (Nat.ltb_spec i k) as [Hlt | Hge]; [ apply Hlogwt; exact Hlt | ].
    replace i with k by lia. rewrite Nat.eqb_refl.
    rewrite EV, HV. unfold volume_after. simpl.
    f_equal. f_equal. unfold Rdiv. ring.
Qed.

(** ** The candidate loop *)

Lemma process_candidates_invariant (NLP : nat) (cands : list candidate) :
  (2 <= NLP)%nat ->
  forall st st',
    run_invariant NLP st ->
    process_candidates NLP cands st = Ok st' ->
    run_invariant NLP st'.
Proof.
  intros HN. induction cands as [ | [x l] rest IH]; intros st st' Hinv H;
    simpl in H.
  - now injection H as <-.
  - inv_bind H as m Em. destruct l as [l | ].
    + destruct (Rlt_dec m l) as [Hlt | Hge].
      * inv_bind H as st1 E1. eapply IH; [ | exact H].
        eapply replace_step_invariant; eauto.
      * now injection H as <-.
    + now injection H as <-.
Qed.

(** A replacement overwrites the minimum with a larger value, so the
    minimum of the population does not go down. *)
Lemma replace_step_min (NLP : nat) (x_new : point) (l_new : R)
    (st st' : RunState) (m : R) :
  tensor_min (run_L_live st) = Ok m -> m < l_new ->
  replace_step NLP x_new l_new st = Ok st' ->
  exists m', tensor_min (run_L_live st') = Ok m' /\ m <= m'.
Proof.
  intros Hm Hlt H. apply replace_step_inv in H.
  destruct H as (Lmin & Xmin & _ & _ & EL & _).
  rewrite EL. apply tensor_min_set_at; [ exact Hm | lra ].
Qed.

Lemma process_candidates_min (NLP : nat) (cands : list candidate) :
  forall st st' m,
    tensor_min (run_L_live st) = Ok m ->
    process_candidates NLP cands st = Ok st' ->
    exists m', tensor_min (run_L_live st') = Ok m' /\ m <= m'.
Proof.
  induction cands as [ | [x l] rest IH]; intros st st' m Hm H; simpl in H.
  - injection H as <-. exists m. split; [ exact Hm | lra ].
  - rewrite Hm in H. simpl in H. destruct l as [l | ].
    + destruct (Rlt_dec m l) as [Hlt | Hge].
      * inv_bind H as st1 E.
        destruct (replace_step_min NLP x l st st1 m Hm Hlt E)
          as (m1 & Hm1 & Hle1).
        destruct (IH _ _ _ Hm1 H) as (m' & Hm' & Hle').
        exists m'. split; [ exact Hm' | lra ].
      * injection H as <-. exists m. split; [ exact Hm | lra ].
    + injection H as <-. exists m. split; [ exact Hm | lra ].
Qed.

(** C6.  The candidates of one batch are taken in the order returned by the
    kernel.  If the loop ends in [st'] having archived [k] records, then the
    first [k] candidates were each accepted against the minimum current at
    their turn, they alone account for [st'], and the candidate at position
    [k], if there is one, does not exceed the minimum: the loop ends there
    and whatever follows it in the batch has no effect. *)
Theorem process_candidates_stops_at_first_failure
    (NLP : nat) (cands : list candidate) (st st' : RunState) :
  process_candidates NLP cands st = Ok st' ->
  exists k,
    (k <= length cands)%nat /\
    records st' = (records st + k)%nat /\
    process_candidates NLP (firstn k cands) st = Ok st' /\
    (forall j c, (j < k)%nat -> nth_error cands j = Some c ->
       exists st_j,
         process_candidates NLP (firstn j cands) st = Ok st_j /\
         records st_j = (records st + j)%nat /\
         exceeds_minimum c st_j) /\
    (forall c, nth_error cands k = Some c ->
       ~ exceeds_minimum c st' /\
       forall post,
         process_candidates NLP (firstn k cands ++ c :: post) st = Ok st').
Proof.
  revert st st'.
  induction cands as [ | [x l] rest IH]; intros st st' H.
  - simpl in H. injection H as <-. exists O. simpl.
    split; [ lia | split; [ unfold records; lia | split; [ reflexivity | ] ] ].
    split; [ intros j c Hj; lia | intros c Hc; discriminate Hc ].
  - assert (Hstop : forall m, tensor_min (run_L_live st) = Ok m ->
                      (forall l', l = Some l' -> ~ m < l') -> st' = st ->
                      exists k,
      (k <= length ((x, l) :: rest))%nat /\
      records st' = (records st + k)%nat /\
      process_candidates NLP (firstn k ((x, l) :: rest)) st = Ok st' /\
      (forall j c, (j < k)%nat -> nth_error ((x, l) :: rest) j = Some c ->
         exists st_j,
           process_candidates NLP (firstn j ((x, l) :: rest)) st = Ok st_j /\
           records st_j = (records st + j)%nat /\
           exceeds_minimum c st_j) /\
      (forall c, nth_error ((x, l) :: rest) k = Some c ->
         ~ exceeds_minimum c st' /\
         forall post,
           process_candidates NLP
             (firstn k ((x, l) :: rest) ++ c :: post) st = Ok st')).
    { intros m Hm Hno ->. exists O. simpl.
      split; [ lia | split; [ unfold records; lia | split; [ reflexivity | ] ] ].
      split; [ intros j c Hj; lia | ].
      intros c Hc. injection Hc as <-. split.
      - intros (m' & l' & Hm' & Hl' & Hlt). simpl in Hl'.
        rewrite Hm in Hm'. injection Hm' as <-. exact (Hno _ Hl' Hlt).
      - intros post. rewrite Hm. simpl.
        destruct l as [l | ]; [ | reflexivity ].
        destruct (Rlt_dec m l) as [Hlt | _]; [ | reflexivity ].
        exfalso. exact (Hno _ eq_refl Hlt). }
    simpl in H. inv_bind H as m E.
    destruct l as [l | ].
    + destruct (Rlt_dec m l) as [Hlt | Hge].
      * inv_bind H as st1 E0.
        destruct (IH _ _ H) as (k & Hk & Hrec & Hfirst & Hacc & Hnext).
        pose proof (replace_step_count NLP x l st st1 E0) as Hc.
        assert (Hhead : forall tl r,
                  process_candidates NLP tl st1 = r ->
                  process_candidates NLP ((x, Some l) :: tl) st = r).
        { intros tl r Hr. simpl. rewrite E. simpl.
          destruct (Rlt_dec m l) as [_ | Hno]; [ | contradiction ].
          rewrite E0. simpl. exact Hr. }
        exists (S k).
        split; [ simpl; lia | ].
        split; [ unfold records in *; lia | ].
        split; [ simpl firstn; apply Hhead; exact Hfirst | ].
        split.
        -- intros [ | j] c Hj Hc'.
           ++ simpl in Hc'. injection Hc' as <-. exists st.
              split; [ reflexivity | ].
              split; [ lia | ].
              exists m, l. auto.
           ++ simpl in Hc'.
              destruct (Hacc j c ltac:(lia) Hc') as (st_j & H1 & H2 & H3).
              exists st_j.
              split; [ simpl firstn; apply Hhead; exact H1 | ].
              split; [ unfold records in *; lia | exact H3 ].
        -- intros c Hc'. simpl in Hc'.
           destruct (Hnext c Hc') as [Hn1 Hn2].
           split; [ exact Hn1 | ].
           intros post. simpl firstn. rewrite <- app_comm_cons.
           apply Hhead. apply Hn2.
      * apply (Hstop m eq_refl).
        -- intros l' Hl'. injection Hl' as <-. exact Hge.
        -- now injection H as <-.
    + apply (Hstop m eq_refl).
      * discriminate.
      * now injection H as <-.
Qed.

(** ** The acceptance rule of the kernel *)

Lemma Rltb_spec (x y : R) : Rltb x y = true <-> x < y.
Proof. unfold Rltb. destruct (Rlt_dec x y); split; auto; discriminate. Qed.

Lemma Rleb_spec (x y : R) : Rleb x y = true <-> x <= y.
Proof. unfold Rleb. destruct (Rle_dec x y); split; auto; discriminate. Qed.

Lemma xltb_above (logl_th : xreal) (l : R) :
  xltb logl_th (Fin l) = true <-> above logl_th l.
Proof.
  destruct logl_th as [ | t | ]; simpl.
  - split; auto.
  - apply Rltb_spec.
  - split; [ discriminate | contradiction ].
Qed.

Lemma accept_row_spec (inbound : point -> bool) (logl_fn : point -> R)
    (logl_th : xreal) (pX : list point) (s : nat) (p : point) :
  nth_error pX s = Some p ->
  (nth s (accept_row inbound logl_fn logl_th pX) false = true <->
   acceptable inbound logl_fn logl_th p).
Proof.
  intros Hs. unfold accept_row, acceptable.
  assert (E : nth s (map (fun p0 => xltb logl_th (Fin (logl_fn p0)) && inbound p0)
                         pX) false
              = xltb logl_th (Fin (logl_fn p)) && inbound p).
  { revert s Hs. induction pX as [ | q pX IH]; intros [ | s] Hs; simpl in *;
      try discriminate.
    - now injection Hs as ->.
    - now apply IH. }
  rewrite E, andb_true_iff, xltb_above. reflexivity.
Qed.

Lemma zmax_b2z (b : bool) (l : list bool) :
  zmax (b2z b) (map b2z l) = b2z (b || existsb (fun x => x) l).
Proof.
  revert b; induction l as [ | a l IH]; intros b; simpl.
  - now rewrite orb_false_r.
  - rewrite IH. destruct b, a, (existsb (fun x => x) l); reflexivity.
Qed.

Lemma sum_b2z_nonneg (l : list bool) :
  (0 <= fold_right Z.add 0 (map b2z l))%Z.
Proof.
  induction l as [ | a l IH]; [ simpl; lia | ].
  change (0 <= b2z a + fold_right Z.add 0 (map b2z l))%Z.
  destruct a; [ change (b2z true) with 1%Z | change (b2z false) with 0%Z ];
    lia.
Qed.

(** [accept_matrix.sum(dim=-1) > 0] says that some entry is true. *)
Lemma accept_any_spec (l : list bool) :
  (0 <? fold_right Z.add 0 (map b2z l))%Z = existsb (fun x => x) l.
Proof.
  induction l as [ | a l IH]; [ reflexivity | ].
  pose proof (sum_b2z_nonneg l) as Hs.
  change ((0 <? b2z a + fold_right Z.add 0 (map b2z l))%Z
          = (a || existsb (fun x => x) l)).
  destruct a; [ change (b2z true) with 1%Z | change (b2z false) with 0%Z ].
  - apply Z.ltb_lt. lia.
  - exact IH.
Qed.

(** [torch.argmax] of a row of flags: the index of the first flag set, when
    one is. *)
Lemma argmax_first_true (l : list bool) :
  existsb (fun x => x) l = true ->
  nth (torch_argmax (map b2z l)) l false = true /\
  forall j, (j < torch_argmax (map b2z l))%nat -> nth j l false = false.
Proof.
  destruct l as [ | b l]; simpl; [ discriminate | ].
  revert b; induction l as [ | a l IH]; intros b H; simpl in *.
  - rewrite orb_false_r in H. subst b. split; [ reflexivity | intros j Hj; lia ].
  - rewrite zmax_b2z.
    destruct b; simpl in *.
    + destruct (a || existsb (fun x => x) l); simpl;
        (split; [ reflexivity | intros j Hj; lia ]).
    + rewrite H. simpl.
      destruct (IH a H) as [H1 H2].
      split; [ exact H1 | ].
      intros [ | j] Hj; [ reflexivity | ].
      apply H2. lia.
Qed.

Lemma existsb_nth (l : list bool) :
  existsb (fun x => x) l = true <-> exists s, nth s l false = true.
Proof.
  split.
  - intros H. apply existsb_exists in H. destruct H as (x & Hin & ->).
    destruct (In_nth _ _ false Hin) as (s & _ & Hs). now exists s.
  - intros (s & Hs). apply existsb_exists. exists true. split; [ | reflexivity ].
    destruct (Nat.lt_ge_cases s (length l)) as [Hlt | Hge].
    + rewrite <- Hs. now apply nth_In.
    + rewrite nth_overflow in Hs by exact Hge. discriminate.
Qed.

Lemma accept_row_length (inbound : point -> bool) (logl_fn : point -> R)
    (logl_th : xreal) (pX : list point) :
  length (accept_row inbound logl_fn logl_th pX) = length pX.
Proof. unfold accept_row. apply length_map. Qed.

(** Lines 81-88 for one chain: the first acceptable candidate is taken, and
    a chain without acceptable candidate stays as it is. *)
Lemma select_step_rel (inbound : point -> bool) (logl_fn : point -> R)
    (logl_th : xreal) (pX : list point) (c : chain) :
  slice_step_rel inbound logl_fn logl_th pX c
    (select_step inbound logl_fn logl_th pX c).
Proof.
  unfold slice_step_rel, select_step.
  set (acc := accept_row inbound logl_fn logl_th pX).
  rewrite accept_any_spec.
  destruct (existsb (fun x => x) acc) eqn:Hex.
  - left.
    destruct (argmax_first_true acc Hex) as [Hsel Hfirst].
    set (idx := torch_argmax (map b2z acc)) in *.
    assert (Hidx : (idx < length pX)%nat).
    { destruct (Nat.lt_ge_cases idx (length pX)) as [Hlt | Hge]; auto.
      unfold acc in Hsel. rewrite nth_overflow in Hsel; [ discriminate | ].
      now rewrite accept_row_length. }
    destruct (nth_error pX idx) as [p | ] eqn:Hp;
      [ | apply nth_error_None in Hp; lia ].
    exists idx, p.
    rewrite (nth_error_nth _ _ _ Hp).
    split; [ | reflexivity ].
    split; [ exact Hp | ].
    split.
    + apply (accept_row_spec inbound logl_fn logl_th pX idx p Hp). exact Hsel.
    + intros j q Hj Hq Hacc.
      apply (accept_row_spec inbound logl_fn logl_th pX j q Hq) in Hacc.
      fold acc in Hacc. rewrite (Hfirst j Hj) in Hacc. discriminate.
  - right. split; [ | reflexivity ].
    intros p Hin Hacc.
    destruct (In_nth_error _ _ Hin) as (s & Hs).
    apply (accept_row_spec inbound logl_fn logl_th pX s p Hs) in Hacc.
    fold acc in Hacc.
    assert (existsb (fun x => x) acc = true)
      by (apply existsb_nth; now exists s).
    congruence.
Qed.

Lemma rows_of_length (B D : nat) (l : list R) : length (rows_of B D l) = B.
Proof.
  revert l; induction B as [ | B IH]; intros l; simpl; auto.
Qed.

Lemma get_directions_length (B D : nat) (g : rng) :
  length (fst (_get_directions B D g)) = B.
Proof.
  unfold _get_directions. simpl. now rewrite length_map, rows_of_length.
Qed.

Lemma torch_rand_length (n : nat) (g : rng) :
  length (fst (torch_rand n g)) = n.
Proof. unfold torch_rand. simpl. now rewrite length_map, length_seq. Qed.

Lemma slice_loop_shape (S B : nat) :
  forall (chains : list bracket) (g : rng) (k : nat),
    length chains = B ->
    Forall (fun b => length (offsets b) = k) chains ->
    length (fst (slice_loop S B chains g)) = B /\
    Forall (fun b => length (offsets b) = (k + S)%nat)
           (fst (slice_loop S B chains g)).
Proof.
  induction S as [ | S IH]; intros chains g k Hlen Hall; cbn [slice_loop].
  - split; [ exact Hlen | ].
    eapply Forall_impl; [ | exact Hall ]. intros b Hb. simpl in Hb. lia.
  - destruct (torch_rand B g) as [u g'] eqn:Eu.
    pose proof (torch_rand_length B g) as Hu. rewrite Eu in Hu. simpl in Hu.
    replace (k + Datatypes.S S)%nat with (Datatypes.S k + S)%nat by lia.
    apply IH.
    + rewrite length_map, length_combine. lia.
    + apply Forall_forall. intros b Hb. apply in_map_iff in Hb.
      destruct Hb as ([u0 b0] & <- & Hin). simpl.
      apply in_combine_r in Hin.
      rewrite Forall_forall in Hall. rewrite length_app, (Hall _ Hin).
      simpl. lia.
Qed.

Lemma get_slice_sample_points_shape (B S : nat) (g : rng) :
  length (fst (_get_slice_sample_points B S g)) = B /\
  Forall (fun row => length row = S) (fst (_get_slice_sample_points B S g)).
Proof.
  unfold _get_slice_sample_points.
  destruct (slice_loop S B (repeat (mkBracket (-1) 1 []) B) g)
    as [chains g'] eqn:E.
  destruct (slice_loop_shape S B (repeat (mkBracket (-1) 1 []) B) g O)
    as [H1 H2].
  - apply repeat_length.
  - apply Forall_forall. intros b Hb. apply repeat_spec in Hb. now subst b.
  - rewrite E in H1, H2. simpl in *. split.
    + now rewrite length_map.
    + apply Forall_forall. intros row Hrow. apply in_map_iff in Hrow.
      destruct Hrow as (b & <- & Hb).
      rewrite Forall_forall in H2. now apply H2.
Qed.

Lemma Forall2_map_combine3 {A B C D : Type} (P : A -> D -> Prop)
    (f : A * B * C -> D) :
  forall (la : list A) (lb : list B) (lc : list C),
    length lb = length la -> length lc = length la ->
    (forall a b c, In a la -> In b lb -> In c lc -> P a (f (a, b, c))) ->
    Forall2 P la (map f (combine (combine la lb) lc)).
Proof.
  induction la as [ | a la IH]; intros [ | b lb] [ | c lc] Hb Hc HP;
    simpl in *; try discriminate; constructor.
  - apply HP; now left.
  - apply IH; try lia. intros a' b' c' Ha' Hb' Hc'. apply HP; now right.
Qed.


(** ** Sums and quadratic forms *)

Lemma sumR_ext (n : nat) (f g : nat -> R) :
  (forall i, (i < n)%nat -> f i = g i) -> sumR n f = sumR n g.
Proof.
  revert f g; induction n as [ | n IH]; intros f g H; simpl.
  - reflexivity.
  - rewrite (H O) by lia. f_equal. apply IH. intros i Hi. apply H. lia.
Qed.

Lemma sumR_zero (n : nat) : sumR n (fun _ => 0) = 0.
Proof. induction n as [ | n IH]; simpl; [ | rewrite IH ]; lra. Qed.

Lemma sumR_zero_ext (n : nat) (f : nat -> R) :
  (forall i, (i < n)%nat -> f i = 0) -> sumR n f = 0.
Proof.
  intros H. rewrite <- (sumR_zero n). now apply sumR_ext.
Qed.

Lemma sumR_plus (n : nat) (f g : nat -> R) :
  sumR n (fun i => f i + g i) = sumR n f + sumR n g.
Proof.
  revert f g; induction n as [ | n IH]; intros f g; simpl.
  - lra.
  - rewrite (IH (fun i => f (S i)) (fun i => g (S i))). lra.
Qed.

Lemma sumR_scal (n : nat) (c : R) (f : nat -> R) :
  sumR n (fun i => c * f i) = c * sumR n f.
Proof.
  revert f; induction n as [ | n IH]; intros f; simpl.
  - lra.
  - rewrite (IH (fun i => f (S i))). lra.
Qed.

Lemma sumR_minus_scal (n : nat) (c : R) (f g : nat -> R) :
  sumR n (fun i => f i - c * g i) = sumR n f - c * sumR n g.
Proof.
  revert f g; induction n as [ | n IH]; intros f g; simpl.
  - lra.
  - rewrite (IH (fun i => f (S i)) (fun i => g (S i))). lra.
Qed.



(** The product of two sums is the double sum of the products. *)
Lemma sumR_mul (n : nat) (f g : nat -> R) :
  sumR n f * sumR n g = sumR n (fun i => sumR n (fun j => f i * g j)).
Proof.
  rewrite Rmult_comm, <- sumR_scal. apply sumR_ext. intros i _.
  rewrite sumR_scal. ring.
Qed.


Lemma qform_ext (n : nat) (A B : fmat) (x : nat -> R) :
  (forall i j, (i < n)%nat -> (j < n)%nat -> A i j = B i j) ->
  qform n A x = qform n B x.
Proof.
  intros H. unfold qform. apply sumR_ext. intros i Hi.
  apply sumR_ext. intros j Hj. now rewrite H.
Qed.

(** The quadratic form with the first index split off. *)
Lemma qform_S (n : nat) (A : fmat) (x : nat -> R) :
  qform (S n) A x =
  x O * A O O * x O
  + sumR n (fun j => x O * A O (S j) * x (S j))
  + sumR n (fun i => x (S i) * A (S i) O * x O)
  + qform n (fun i j => A (S i) (S j)) (fun i => x (S i)).
Proof.
  unfold qform. simpl.
  rewrite (sumR_plus n (fun i => x (S i) * A (S i) O * x O)
             (fun i => sumR n (fun j => x (S i) * A (S i) (S j) * x (S j)))).
  ring.
Qed.

(** Completing the square on the first variable: the rest is the quadratic
    form of the Schur complement. *)
Lemma qform_schur (n : nat) (A : fmat) (x : nat -> R) :
  fmat_symmetric (S n) A -> A O O <> 0 ->
  let s := sumR n (fun i => A (S i) O * x (S i)) in
  qform (S n) A x =
  A O O * (x O + s / A O O) ^ 2
  + qform n (fun i j => A (S i) (S j) - A (S i) O * A (S j) O / A O O)
      (fun i => x (S i)).
Proof.
  intros Hsym Ha s. rewrite qform_S.
  assert (E1 : sumR n (fun j => x O * A O (S j) * x (S j)) = x O * s).
  { unfold s. rewrite <- sumR_scal. apply sumR_ext. intros j Hj.
    rewrite (Hsym O (S j)) by lia. ring. }
  assert (E2 : sumR n (fun i => x (S i) * A (S i) O * x O) = x O * s).
  { unfold s. rewrite <- sumR_scal. apply sumR_ext. intros j Hj. ring. }
  assert (E3 : qform n (fun i j => A (S i) (S j)
                                   - A (S i) O * A (S j) O / A O O)
                 (fun i => x (S i))
               = qform n (fun i j => A (S i) (S j)) (fun i => x (S i))
                 - s * s / A O O).
  { unfold qform, s.
    rewrite (sumR_mul n (fun i => A (S i) O * x (S i))
               (fun i => A (S i) O * x (S i))).
    replace (sumR n (fun i => sumR n (fun j =>
               A (S i) O * x (S i) * (A (S j) O * x (S j)))) / A O O)
      with (/ A O O * sumR n (fun i => sumR n (fun j =>
               A (S i) O * x (S i) * (A (S j) O * x (S j)))))
      by (unfold Rdiv; ring).
    rewrite <- sumR_minus_scal. apply sumR_ext. intros i Hi.
    rewrite <- sumR_minus_scal. apply sumR_ext. intros j Hj.
    field. exact Ha. }
  rewrite E1, E2, E3. field. exact Ha.
Qed.

(** ** Cholesky factorisation and positive-definiteness *)

Lemma schur_alt (A : fmat) (i j : nat) :
  0 < A O O ->
  schur A i j = A (S i) (S j) - A (S i) O * A (S j) O / A O O.
Proof.
  intros Ha. unfold schur.
  assert (Hs : sqrt (A O O) * sqrt (A O O) = A O O) by (apply sqrt_sqrt; lra).
  assert (Hn : sqrt (A O O) <> 0).
  { intros E. rewrite E in Hs. lra. }
  replace (A (S i) O * A (S j) O / A O O)
    with (A (S i) O * A (S j) O / (sqrt (A O O) * sqrt (A O O)))
    by (now rewrite Hs).
  field. exact Hn.
Qed.

Lemma schur_symmetric (n : nat) (A : fmat) :
  fmat_symmetric (S n) A -> fmat_symmetric n (schur A).
Proof.
  intros Hsym i j Hi Hj. unfold schur.
  rewrite (Hsym (S i) (S j)) by lia. ring.
Qed.

Lemma qform_schur_eq (n : nat) (A : fmat) (x : nat -> R) :
  fmat_symmetric (S n) A -> 0 < A O O ->
  qform (S n) A x =
  A O O * (x O + sumR n (fun i => A (S i) O * x (S i)) / A O O) ^ 2
  + qform n (schur A) (fun i => x (S i)).
Proof.
  intros Hsym Ha.
  rewrite (qform_schur n A x Hsym) by lra. cbv zeta. f_equal.
  apply qform_ext. intros i j _ _. now rewrite schur_alt.
Qed.


Lemma pos_def_pivot (n : nat) (A : fmat) :
  pos_def (S n) A -> 0 < A O O.
Proof.
  intros Hpd.
  pose (e := fun i : nat => match i with O => 1 | S _ => 0 end).
  assert (He : nonzero_vec (S n) e) by (exists O; split; [ lia | simpl; lra ]).
  specialize (Hpd e He). rewrite qform_S in Hpd. simpl in Hpd.
  rewrite (sumR_ext n (fun j => 1 * A O (S j) * 0) (fun _ => 0)) in Hpd
    by (intros; ring).
  rewrite (sumR_ext n (fun i => 0 * A (S i) O * 1) (fun _ => 0)) in Hpd
    by (intros; ring).
  unfold qform in Hpd.
  rewrite (sumR_ext n (fun i => sumR n (fun j => 0 * A (S i) (S j) * 0))
             (fun _ => 0)) in Hpd.
  - rewrite !sumR_zero in Hpd. lra.
  - intros i _. apply sumR_zero_ext. intros j _. ring.
Qed.

Lemma pos_def_schur (n : nat) (A : fmat) :
  fmat_symmetric (S n) A -> pos_def (S n) A -> pos_def n (schur A).
Proof.
  intros Hsym Hpd y Hy.
  pose proof (pos_def_pivot n A Hpd) as Ha.
  pose (s := sumR n (fun i => A (S i) O * y i)).
  pose (x := fun i : nat => match i with O => - s / A O O | S i' => y i' end).
  assert (Hx : nonzero_vec (S n) x).
  { destruct Hy as (i & Hi & Hyi). exists (S i). split; [ lia | exact Hyi ]. }
  specialize (Hpd x Hx).
  rewrite (qform_schur_eq n A x Hsym Ha) in Hpd. simpl in Hpd. fold s in Hpd.
  replace (- s / A O O + s / A O O) with 0 in Hpd by (field; lra).
  replace (A O O * (0 * (0 * 1))) with 0 in Hpd by ring.
  rewrite Rplus_0_l in Hpd.
  erewrite qform_ext; [ exact Hpd | reflexivity ].
Qed.


Lemma LLt_extend (n : nat) (l : R) (w : nat -> R) (L' : fmat) (i j : nat) :
  LLt (S n) (extend_factor l w L') i j =
  match i, j with
  | O, O => l * l
  | O, S j' => l * w j'
  | S i', O => w i' * l
  | S i', S j' => w i' * w j' + LLt n L' i' j'
  end.
Proof.
  unfold LLt. simpl.
  destruct i as [ | i], j as [ | j]; simpl.
  - rewrite sumR_zero_ext by (intros; ring). ring.
  - rewrite sumR_zero_ext by (intros; ring). ring.
  - rewrite sumR_zero_ext by (intros; ring). ring.
  - reflexivity.
Qed.

(** A symmetric positive-definite matrix has a Cholesky factor and [chol]
    finds it. *)
Lemma chol_complete (n : nat) :
  forall A, fmat_symmetric n A -> pos_def n A ->
            exists L, chol n A = Some L /\ cholesky_factor n A L.
Proof.
  induction n as [ | n IH]; intros A Hsym Hpd.
  - exists (fun _ _ => 0). split; [ reflexivity | ].
    unfold cholesky_factor, lower_triangular.
    split; [ | split ]; intros; lia.
  - pose proof (pos_def_pivot n A Hpd) as Ha.
    destruct (IH (schur A) (schur_symmetric n A Hsym)
                (pos_def_schur n A Hsym Hpd))
      as (L' & HL' & Hlow & Hdiag & Hprod).
    assert (Hs : sqrt (A O O) * sqrt (A O O) = A O O)
      by (apply sqrt_sqrt; lra).
    assert (Hl : 0 < sqrt (A O O)) by (apply sqrt_lt_R0; exact Ha).
    eexists. split.
    + simpl. destruct (Rlt_dec 0 (A O O)) as [_ | Hno]; [ | contradiction ].
      rewrite HL'. reflexivity.
    + split; [ | split ].
      * intros i j Hij Hj. destruct j as [ | j]; [ lia | ].
        destruct i as [ | i]; simpl; [ reflexivity | ].
        apply Hlow; lia.
      * intros [ | i] Hi; simpl; [ exact Hl | apply Hdiag; lia ].
      * intros i j Hi Hj. rewrite LLt_extend.
        destruct i as [ | i], j as [ | j].
        -- exact Hs.
        -- rewrite (Hsym O (S j)) by lia. field. lra.
        -- field. lra.
        -- rewrite Hprod by lia. unfold schur. ring.
Qed.



(** ** Matrices as lists of rows *)

Lemma tabulate_length (n m : nat) (f : nat -> nat -> R) :
  length (tabulate n m f) = n.
Proof. unfold tabulate. now rewrite length_map, length_seq. Qed.

Lemma entry_tabulate (n m : nat) (f : nat -> nat -> R) (i j : nat) :
  (i < n)%nat -> (j < m)%nat -> entry (tabulate n m f) i j = f i j.
Proof.
  intros Hi Hj. unfold entry, tabulate.
  rewrite (nth_indep _ [] (map (fun j0 => f O j0) (seq 0 m)))
    by (now rewrite length_map, length_seq).
  rewrite (map_nth (fun i0 => map (fun j0 => f i0 j0) (seq 0 m)) (seq 0 n) O i).
  rewrite seq_nth by exact Hi. simpl.
  rewrite (nth_indep _ 0 (f i O)) by (now rewrite length_map, length_seq).
  rewrite (map_nth (fun j0 => f i j0) (seq 0 m) O j).
  now rewrite seq_nth.
Qed.

Lemma cholesky_factor_ext (n : nat) (A A' L L' : fmat) :
  (forall i j, (i < n)%nat -> (j < n)%nat -> A i j = A' i j) ->
  (forall i j, (i < n)%nat -> (j < n)%nat -> L i j = L' i j) ->
  cholesky_factor n A L -> cholesky_factor n A' L'.
Proof.
  intros HA HL (Hlow & Hdiag & Hprod). split; [ | split ].
  - intros i j Hij Hj. rewrite <- HL by lia. now apply Hlow.
  - intros i Hi. rewrite <- HL by lia. now apply Hdiag.
  - intros i j Hi Hj. rewrite <- HA, <- Hprod by lia.
    unfold LLt. apply sumR_ext. intros k Hk. now rewrite !HL.
Qed.

(** [linalg_cholesky] succeeds exactly on the positive-definite matrices
    and returns a Cholesky factor. *)
Lemma linalg_cholesky_pos_def (A : matrix) :
  fmat_symmetric (length A) (entry A) ->
  pos_def (length A) (entry A) ->
  exists L, linalg_cholesky A = Ok L /\
            length L = length A /\
            cholesky_factor (length A) (entry A) (entry L).
Proof.
  intros Hsym Hpd.
  destruct (chol_complete (length A) (entry A) Hsym Hpd) as (Lf & HL & Hf).
  exists (tabulate (length A) (length A) Lf). unfold linalg_cholesky.
  rewrite HL. split; [ reflexivity | ].
  split; [ apply tabulate_length | ].
  eapply cholesky_factor_ext; [ | | exact Hf ].
  - reflexivity.
  - intros i j Hi Hj. now rewrite entry_tabulate.
Qed.


Lemma linalg_cholesky_error (A : matrix) (e : error) :
  linalg_cholesky A = Err e -> e = LinAlgError.
Proof.
  unfold linalg_cholesky.
  destruct (chol (length A) (entry A)); [ discriminate | ].
  intros H. now injection H as <-.
Qed.

(** ** The repair of the whitener *)









(** ** The run *)

(** The whitener needs two observations at least. *)
Lemma calc_Lchol_two_points (eigvalsh : matrix -> list R) (X : list point)
    (L : matrix) :
  _calc_Lchol eigvalsh X = Ok L -> (2 <= length X)%nat.
Proof.
  unfold _calc_Lchol, torch_cov.
  destruct (ncols X =? 1)%nat; [ discriminate | ].
  destruct (Nat.leb_spec (length X) 1) as [Hle | Hgt]; [ discriminate | ].
  intros _. lia.
Qed.

Section RunProperties.

Variable eigvalsh : matrix -> list R.
Variable logl_fn : point -> R.
Variable self : NestedSampler.
Variable args : ns_args.

Lemma ns_iteration_invariant (NLP B : nat) (st st' : RunState) (g g' : rng)
    (fl : flow) :
  run_invariant NLP st ->
  ns_iteration eigvalsh logl_fn self args NLP B st g = Ok (fl, st', g') ->
  run_invariant NLP st'.
Proof.
  intros Hinv H. unfold ns_iteration in H.
  destruct (np_random_choice NLP B g) as [idx g1].
  inv_bind H as m Em.
  destruct (xltb (logl_th_max args) (Fin m)).
  - injection H as _ <- _. exact Hinv.
  - inv_bind H as Lchol EL. inv_bind H as r Eg. destruct r as [cands g2].
    inv_bind H as st1 Ep.
    assert (HN : (2 <= NLP)%nat).
    { apply calc_Lchol_two_points in EL.
      destruct Hinv as (HX & _). lia. }
    assert (Hinv' : run_invariant NLP st1)
      by (eapply process_candidates_invariant; eauto).
    destruct (xltb (run_Z_rest st1) (Fin (run_Z st1 * epsilon args)));
      injection H as _ <- _; exact Hinv'.
Qed.

Lemma ns_iteration_min (NLP B : nat) (st st' : RunState) (g g' : rng)
    (fl : flow) (m : R) :
  tensor_min (run_L_live st) = Ok m ->
  ns_iteration eigvalsh logl_fn self args NLP B st g = Ok (fl, st', g') ->
  exists m', tensor_min (run_L_live st') = Ok m' /\ m <= m'.
Proof.
  intros Hm H. unfold ns_iteration in H.
  destruct (np_random_choice NLP B g) as [idx g1].
  rewrite Hm in H. simpl in H.
  destruct (xltb (logl_th_max args) (Fin m)).
  - injection H as _ <- _. exists m. split; [ exact Hm | lra ].
  - inv_bind H as Lchol EL. inv_bind H as r Eg. destruct r as [cands g2].
    inv_bind H as st1 Ep.
    pose proof (process_candidates_min NLP cands st st1 m Hm Ep) as Hmin.
    destruct (xltb (run_Z_rest st1) (Fin (run_Z st1 * epsilon args)));
      injection H as _ <- _; exact Hmin.
Qed.

Lemma ns_loop_invariant (steps NLP B : nat) :
  forall (st st' : RunState) (g g' : rng),
    run_invariant NLP st ->
    ns_loop eigvalsh logl_fn self args steps NLP B st g = Ok (st', g') ->
    run_invariant NLP st'.
Proof.
  induction steps as [ | k IH]; intros st st' g g' Hinv H; simpl in H.
  - injection H as <- _. exact Hinv.
  - inv_bind H as r E. destruct r as [[fl st1] g1].
    pose proof (ns_iteration_invariant NLP B st st1 g g1 fl Hinv E) as Hinv1.
    destruct fl.
    + eapply IH; eauto.
    + injection H as <- _. exact Hinv1.
Qed.

Lemma ns_loop_min (steps NLP B : nat) :
  forall (st st' : RunState) (g g' : rng) (m : R),
    tensor_min (run_L_live st) = Ok m ->
    ns_loop eigvalsh logl_fn self args steps NLP B st g = Ok (st', g') ->
    exists m', tensor_min (run_L_live st') = Ok m' /\ m <= m'.
Proof.
  induction steps as [ | k IH]; intros st st' g g' m Hm H; simpl in H.
  - injection H as <- _. exists m. split; [ exact Hm | lra ].
  - inv_bind H as r E. destruct r as [[fl st1] g1].
    destruct (ns_iteration_min NLP B st st1 g g1 fl m Hm E)
      as (m1 & Hm1 & Hle1).
    destruct fl.
    + destruct (IH st1 st' g1 g' m1 Hm1 H) as (m' & Hm' & Hle').
      exists m'. split; [ exact Hm' | lra ].
    + injection H as <- _. exists m1. split; [ exact Hm1 | exact Hle1 ].
Qed.

Lemma initial_state_invariant :
  run_invariant (length (X_live self)) (initial_state logl_fn self).
Proof.
  unfold run_invariant, initial_state. simpl.
  split; [ reflexivity | ].
  split; [ reflexivity | ].
  split; [ reflexivity | ].
  split; [ reflexivity | ].
  split; [ reflexivity | ].
  split; [ intros i Hi; lia | ].
  split; [ intros i Hi; lia | ].
  now left.
Qed.

(** The archive a finished run leaves on [self] satisfies the bookkeeping
    invariant. *)
Lemma nested_sampling_archive (g g' : rng) (self' : NestedSampler) :
  nested_sampling eigvalsh logl_fn self args g = Ok (self', g') ->
  exists st,
    run_invariant (length (X_live self)) st /\
    archive self' =
      Some (mkArchive (run_samples_X st) (run_samples_logv st)
              (run_samples_logl st) (run_samples_logwt st)) /\
    L_live self' = Some (run_L_live st) /\
    X_live self' = run_X_live st.
Proof.
  unfold nested_sampling. intros H. inv_bind H as r E. destruct r as [st g1].
  injection H as <- _. exists st. simpl.
  split; [ | auto ].
  eapply ns_loop_invariant; [ apply initial_state_invariant | exact E ].
Qed.

End RunProperties.

(** ** Resampling *)

(** C8.  Without archive ([nested_sampling] has not run, the [samples_*]
    attributes do not exist) every resampling operation ends with an
    [AttributeError]; with an archive of zero records it ends at the [max()]
    of an empty tensor.  No sample set is returned in either case, whatever
    the number of samples asked for. *)
Theorem resampling_fails_on_empty_archive
    (self : NestedSampler) (N : option nat) (min_logl : xreal) (g : rng) :
  (archive self = None ->
   get_posterior_samples self N g = Err AttributeError /\
   get_constrained_prior_samples self N min_logl g = Err AttributeError) /\
  (forall a, archive self = Some a -> archive_empty a ->
   get_posterior_samples self N g = Err EmptyReduction /\
   get_constrained_prior_samples self N min_logl g = Err EmptyReduction).
Proof.
  split.
  - intros Ha.
    unfold get_posterior_samples, get_constrained_prior_samples,
      get_posterior_neff, get_constrained_prior_neff, the_archive.
    rewrite Ha. destruct N; simpl; split; reflexivity.
  - intros a Ha (_ & Hv & Hl & Hw).
    unfold get_posterior_samples, get_constrained_prior_samples,
      get_posterior_neff, get_constrained_prior_neff, the_archive.
    rewrite Ha. simpl. rewrite Hv, Hl, Hw.
    destruct N; simpl; split; reflexivity.
Qed.










(** C10.  A request for fewer samples than [batch_size] never returns
    samples.  The loop over [range(N // batch_size)] has no pass, so no
    proposal batch runs and the generator state is the one left by the
    resampling of the seeds; once the seeds are drawn and whitened, the call
    ends at [torch.cat] of an empty list.  When the resampling of the seeds
    or their whitening raises, that error leaves the call instead. *)
Theorem generate_below_batch_size_fails
    (eigvalsh : matrix -> list R) (self : NestedSampler)
    (logl_fn : point -> R) (N : nat) (min_logl : xreal)
    (batch_size num_steps : nat) (g : rng) :
  (1 <= N)%nat -> (N < batch_size)%nat ->
  (N / batch_size = 0)%nat /\
  (forall X_seeds g1,
      batches_loop eigvalsh self logl_fn X_seeds min_logl batch_size num_steps
        (seq 0 (N / batch_size)) g1 = Ok ([], [], g1)) /\
  is_err (generate_constrained_prior_samples eigvalsh self logl_fn N min_logl
            batch_size num_steps g) = true /\
  match get_constrained_prior_samples self (Some N) min_logl g with
  | Err e =>
      generate_constrained_prior_samples eigvalsh self logl_fn N min_logl
        batch_size num_steps g = Err e
  | Ok (X_seeds, _, _) =>
      match _calc_Lchol eigvalsh X_seeds with
      | Err e =>
          generate_constrained_prior_samples eigvalsh self logl_fn N min_logl
            batch_size num_steps g = Err e
      | Ok _ =>
          generate_constrained_prior_samples eigvalsh self logl_fn N min_logl
            batch_size num_steps g = Err EmptyCat
      end
  end.
Proof.
  intros HN Hlt.
  assert (Hdiv : (N / batch_size = 0)%nat) by (apply Nat.div_small; exact Hlt).
  assert (Hbs : (batch_size =? 0)%nat = false) by (apply Nat.eqb_neq; lia).
  split; [ exact Hdiv | ].
  split; [ intros X_seeds g1; rewrite Hdiv; reflexivity | ].
  unfold generate_constrained_prior_samples.
  destruct (get_constrained_prior_samples self (Some N) min_logl g)
    as [[[X_seeds Ls] g1] | e]; simpl; [ | split; reflexivity ].
  destruct (_calc_Lchol eigvalsh X_seeds) as [L | e]; simpl;
    [ | split; reflexivity ].
  rewrite Hbs, Hdiv. simpl. split; reflexivity.
Qed.

(** ** The archive of a finished run *)

Lemma shrink_factor_bounds (N : nat) :
  (2 <= N)%nat -> 0 < 1 - 1 / INR N < 1.
Proof.
  intros HN.
  assert (H2 : 2 <= INR N) by (replace 2 with (INR 2) by (simpl; lra);
                               apply le_INR; exact HN).
  assert (Hinv : 0 < / INR N) by (apply Rinv_0_lt_compat; lra).
  assert (Hlt : / INR N < 1).
  { rewrite <- Rinv_1. apply Rinv_lt_contravar; lra. }
  unfold Rdiv. rewrite Rmult_1_l. lra.
Qed.

Lemma volume_after_pos (N k : nat) : (2 <= N)%nat -> 0 < volume_after N k.
Proof.
  intros HN. unfold volume_after. apply pow_lt.
  apply (shrink_factor_bounds N HN).
Qed.

Lemma volume_after_decreasing (N i j : nat) :
  (2 <= N)%nat -> (i < j)%nat -> volume_after N j < volume_after N i.
Proof.
  intros HN Hij. pose proof (shrink_factor_bounds N HN) as [Hq0 Hq1].
  induction j as [ | j IH]; [ lia | ].
  assert (Hstep : volume_after N (S j) < volume_after N j).
  { pose proof (volume_after_pos N j HN) as Hp.
    unfold volume_after in *. simpl. nra. }
  destruct (Nat.eq_dec i j) as [-> | Hne]; [ exact Hstep | ].
  eapply Rlt_trans; [ exact Hstep | apply IH; lia ].
Qed.

(** C1, as the code has it.  In the archive of a finished run over [N] live
    points, the log-weight of every record is its log-likelihood plus the
    logarithm of the volume AFTER the shrinkage of that replacement, divided
    by [N]: the volume whose logarithm the record keeps in [samples_logv],
    times [1 - 1/N], over [N]. *)
Theorem archive_log_weights
    (eigvalsh : matrix -> list R) (logl_fn : point -> R)
    (self self' : NestedSampler) (args : ns_args) (g g' : rng)
    (a : Archive) (k : nat) :
  nested_sampling eigvalsh logl_fn self args g = Ok (self', g') ->
  archive self' = Some a ->
  (k < length (samples_logwt a))%nat ->
  length (samples_logwt a) = length (samples_logv a) /\
  length (samples_logwt a) = length (samples_logl a) /\
  nth k (samples_logwt a) 0 =
    nth k (samples_logl a) 0
    + ln (exp (nth k (samples_logv a) 0)
          * (1 - 1 / INR (length (X_live self)))
          / INR (length (X_live self))).
Proof.
  intros Hrun Ha Hk.
  destruct (nested_sampling_archive eigvalsh logl_fn self args g g' self' Hrun)
    as (st & Hinv & Harch & _).
  rewrite Harch in Ha. injection Ha as <-. simpl in *.
  destruct Hinv as (_ & _ & Hl & Hw & _ & Hlogv & Hlogwt & HN).
  rewrite Hw in Hk.
  destruct HN as [H0 | HN]; [ lia | ].
  split; [ lia | split; [ lia | ] ].
  rewrite (Hlogwt k Hk), (Hlogv k Hk).
  rewrite exp_ln by (apply volume_after_pos; exact HN).
  unfold volume_after. simpl. do 2 f_equal. unfold Rdiv. ring.
Qed.

(** C4.  In the archive of a finished run over [N] live points, the record
    of index [k] (appended once [k] replacements have been made) keeps the
    logarithm of the volume [(1 - 1/N)^k], and the logged volumes are
    strictly decreasing along the archive. *)
Theorem archive_volumes
    (eigvalsh : matrix -> list R) (logl_fn : point -> R)
    (self self' : NestedSampler) (args : ns_args) (g g' : rng)
    (a : Archive) :
  nested_sampling eigvalsh logl_fn self args g = Ok (self', g') ->
  archive self' = Some a ->
  (forall k, (k < length (samples_logv a))%nat ->
     nth k (samples_logv a) 0 = ln (volume_after (length (X_live self)) k) /\
     exp (nth k (samples_logv a) 0) = (1 - 1 / INR (length (X_live self))) ^ k) /\
  (forall i j, (i < j)%nat -> (j < length (samples_logv a))%nat ->
     nth j (samples_logv a) 0 < nth i (samples_logv a) 0 /\
     exp (nth j (samples_logv a) 0) < exp (nth i (samples_logv a) 0)).
Proof.
  intros Hrun Ha.
  destruct (nested_sampling_archive eigvalsh logl_fn self args g g' self' Hrun)
    as (st & Hinv & Harch & _).
  rewrite Harch in Ha. injection Ha as <-. simpl in *.
  destruct Hinv as (_ & _ & _ & _ & _ & Hlogv & _ & HN).
  assert (H2 : forall k, (k < length (run_samples_logv st))%nat ->
                         (2 <= length (X_live self))%nat).
  { intros k Hk. destruct HN as [H0 | HN]; [ lia | exact HN ]. }
  split.
  - intros k Hk. rewrite (Hlogv k Hk). split; [ reflexivity | ].
    apply exp_ln. apply volume_after_pos. exact (H2 k Hk).
  - intros i j Hij Hj.
    pose proof (H2 j Hj) as HN2.
    pose proof (volume_after_decreasing _ i j HN2 Hij) as Hdec.
    pose proof (volume_after_pos (length (X_live self)) j HN2) as Hpj.
    rewrite (Hlogv j Hj), (Hlogv i) by lia.
    split.
    + apply ln_increasing; assumption.
    + rewrite !exp_ln; try assumption. lra.
Qed.

(** The volume starts at one and every replacement multiplies it by
    [1 - 1/N]. *)
Lemma volume_shrinks_per_replacement :
  (forall logl_fn self, run_V (initial_state logl_fn self) = 1) /\
  (forall NLP x l st st',
      replace_step NLP x l st = Ok st' ->
      run_V st' = run_V st * (1 - 1 / INR NLP) /\
      run_samples_logv st' = run_samples_logv st ++ [ln (run_V st)]).
Proof.
  split; [ reflexivity | ].
  intros NLP x l st st' H. apply replace_step_inv in H.
  destruct H as (Lmin & Xmin & _ & _ & _ & _ & EV & _ & _ & Ev & _).
  auto.
Qed.

(** C5.  The minimum log-likelihood of the live population never goes down.
    A replacement writes the candidate's log-likelihood, strictly above the
    minimum, over the entry that held the minimum, and the minimum of the
    population after it is at least the one before; the same holds across
    the candidates of one batch, across any number of passes of the main
    loop from any state, and so between the start and the end of
    [nested_sampling]. *)
Theorem live_minimum_never_decreases :
  (forall NLP x l st st' m,
      tensor_min (run_L_live st) = Ok m -> m < l ->
      replace_step NLP x l st = Ok st' ->
      get (run_L_live st) (np_argmin (run_L_live st)) = Ok m /\
      run_L_live st' = set_at (run_L_live st) (np_argmin (run_L_live st)) l /\
      get (run_L_live st') (np_argmin (run_L_live st)) = Ok l /\
      exists m', tensor_min (run_L_live st') = Ok m' /\ m <= m') /\
  (forall NLP cands st st' m,
      tensor_min (run_L_live st) = Ok m ->
      process_candidates NLP cands st = Ok st' ->
      exists m', tensor_min (run_L_live st') = Ok m' /\ m <= m') /\
  (forall eigvalsh logl_fn self args steps NLP B st st' g g' m,
      tensor_min (run_L_live st) = Ok m ->
      ns_loop eigvalsh logl_fn self args steps NLP B st g = Ok (st', g') ->
      exists m', tensor_min (run_L_live st') = Ok m' /\ m <= m') /\
  (forall eigvalsh logl_fn self self' args g g' m,
      tensor_min (run_L_live (initial_state logl_fn self)) = Ok m ->
      nested_sampling eigvalsh logl_fn self args g = Ok (self', g') ->
      exists L' m',
        L_live self' = Some L' /\ tensor_min L' = Ok m' /\ m <= m').
Proof.
  split; [ | split; [ | split ] ].
  - intros NLP x l st st' m Hm Hlt H.
    pose proof (replace_step_min NLP x l st st' m Hm Hlt H) as Hmin.
    pose proof (get_argmin _ _ Hm) as Hget.
    apply replace_step_inv in H.
    destruct H as (Lmin & Xmin & _ & _ & EL & _).
    split; [ exact Hget | ].
    split; [ exact EL | ].
    split; [ | exact Hmin ].
    rewrite EL. unfold get in *.
    destruct (nth_error (run_L_live st) (np_argmin (run_L_live st)))
      eqn:E; [ | discriminate ].
    rewrite set_at_nth_same; [ reflexivity | ].
    apply nth_error_Some. congruence.
  - exact process_candidates_min.
  - intros eigvalsh logl_fn self args steps NLP B st st' g g' m.
    apply ns_loop_min.
  - intros eigvalsh logl_fn self self' args g g' m Hm H.
    unfold nested_sampling in H. inv_bind H as r E. destruct r as [st g1].
    injection H as <- _. simpl.
    destruct (ns_loop_min eigvalsh logl_fn self args _ _ _ _ _ _ _ m Hm E)
      as (m' & Hm' & Hle).
    exists (run_L_live st), m'. auto.
Qed.

(** ** The whitening factor of the kernel *)


(** ** The small run, step by step *)

Lemma demo_cov_entries :
  cov_entry demo_X 0 0 = 1 / 3 /\ cov_entry demo_X 0 1 = - (1 / 6) /\
  cov_entry demo_X 1 0 = - (1 / 6) /\ cov_entry demo_X 1 1 = 1 / 3.
Proof.
  unfold cov_entry, mean, column, tensor_sum, demo_X. simpl.
  repeat split; field.
Qed.

Lemma demo_Lchol :
  exists L, _calc_Lchol eigvalsh_2x2 demo_X = Ok L /\ length L = 2%nat.
Proof.
  destruct demo_cov_entries as (E00 & E01 & E10 & E11).
  set (cov := tabulate 2 2 (cov_entry demo_X)).
  assert (Hent : forall i j, (i < 2)%nat -> (j < 2)%nat ->
                             entry cov i j = cov_entry demo_X i j)
    by (intros; unfold cov; now apply entry_tabulate).
  assert (Hsym : fmat_symmetric (length cov) (entry cov)).
  { intros i j Hi Hj. change (length cov) with 2%nat in *.
    rewrite !Hent by lia.
    destruct i as [ | [ | i]], j as [ | [ | j]]; try lia; congruence. }
  assert (Hpd : pos_def (length cov) (entry cov)).
  { intros x (i & Hi & Hx). change (length cov) with 2%nat in *.
    unfold qform. cbn [sumR]. rewrite !Hent by lia.
    rewrite E00, E01, E10, E11.
    assert (Hsq : 0 < x O * x O + x 1%nat * x 1%nat).
    { destruct i as [ | [ | i]]; [ | | lia ].
      - pose proof (Rle_0_sqr (x 1%nat)) as H1. unfold Rsqr in H1.
        assert (0 < x O * x O); [ | lra ].
        destruct (Rtotal_order (x O) 0) as [ | [ | ]]; [ nra | tauto | nra ].
      - pose proof (Rle_0_sqr (x O)) as H1. unfold Rsqr in H1.
        assert (0 < x 1%nat * x 1%nat); [ | lra ].
        destruct (Rtotal_order (x 1%nat) 0) as [ | [ | ]];
          [ nra | tauto | nra ]. }
    pose proof (Rle_0_sqr (x O - x 1%nat)) as H2. unfold Rsqr in H2.
    nra. }
  destruct (linalg_cholesky_pos_def cov Hsym Hpd) as (L & HL & Hlen & _).
  exists L. split; [ | exact Hlen ].
  unfold _calc_Lchol, torch_cov. simpl. fold cov.
  unfold Lchol_of_cov. now rewrite HL.
Qed.

Lemma dot_zero_left (d r : list R) :
  Forall (fun v => v = 0) d -> dot d r = 0.
Proof.
  unfold dot, tensor_sum. revert r.
  induction d as [ | v d IH]; intros r Hd; [ reflexivity | ].
  destruct r as [ | w r]; [ reflexivity | ].
  inversion Hd as [ | ? ? Hv Hd']; subst. simpl.
  rewrite (IH r Hd'). ring.
Qed.

(** A zero offset proposes the seed itself, whatever the whitening factor. *)
Lemma proposals_zero_offset (r0 r1 : list R) (X n : point) (a b : R) :
  X = [a; b] ->
  proposals [r0; r1] X n [0] = [[a; b]].
Proof.
  intros ->. unfold proposals. cbn [map].
  rewrite !dot_zero_left.
  - unfold vadd. simpl. repeat f_equal; ring.
  - apply Forall_forall. intros v Hv. apply in_map_iff in Hv.
    destruct Hv as (nd & <- & _). ring.
  - apply Forall_forall. intros v Hv. apply in_map_iff in Hv.
    destruct Hv as (nd & <- & _). ring.
Qed.

Lemma demo_seed_acceptable :
  acceptable _inbound_unitcube demo_logl (Fin 0) [1; 0].
Proof.
  split.
  - unfold above, demo_logl. simpl. lra.
  - unfold _inbound_unitcube. simpl.
    assert (H11 : Rleb 1 1 = true) by (apply Rleb_spec; lra).
    assert (H01 : Rleb 0 1 = true) by (apply Rleb_spec; lra).
    assert (H00 : Rleb 0 0 = true) by (apply Rleb_spec; lra).
    now rewrite H11, H01, H00.
Qed.

Lemma demo_select (c : chain) :
  select_step _inbound_unitcube demo_logl (Fin 0) [[1; 0]] c
  = mkChain [1; 0] (Some 1) (S (cC c)).
Proof.
  destruct (select_step_rel _inbound_unitcube demo_logl (Fin 0) [[1; 0]] c)
    as [(s & p & (Hs & _ & _) & ->) | (Hnone & _)].
  - destruct s as [ | [ | s]]; simpl in Hs; try discriminate.
    injection Hs as <-. f_equal. f_equal. unfold demo_logl. simpl. lra.
  - exfalso. apply (Hnone [1; 0]); [ now left | apply demo_seed_acceptable ].
Qed.

Lemma demo_gen (L : matrix) :
  length L = 2%nat ->
  exists g2,
    _gen_new_samples eigvalsh_2x2 _inbound_unitcube demo_logl [[1; 0]]
      (Fin 0) 1 1 1 (Some L) (snd (np_random_choice 3 1 demo_rng))
    = Ok ([([1; 0], Some 1)], g2).
Proof.
  intros HL.
  destruct L as [ | r0 [ | r1 [ | ? ? ]]]; try discriminate.
  unfold _gen_new_samples, whitening_factor. cbn [bind map].
  cbn [kernel_loop]. unfold kernel_step.
  cbn [length map ncols cX].
  unfold _get_directions, _get_slice_sample_points, torch_randn, torch_rand,
    np_random_choice, demo_rng.
  cbn -[select_step proposals unit_direction].
  replace ((1 / 2 * (1 - -1) + -1) * 1) with 0 by lra.
  rewrite (proposals_zero_offset r0 r1 [1; 0] _ 1 0 eq_refl).
  rewrite demo_select. cbn.
  eexists. reflexivity.
Qed.

Lemma demo_min : tensor_min [0; 1; 1] = Ok 0.
Proof.
  simpl. f_equal. rewrite (Rmin_left 1 1) by lra. apply Rmin_left. lra.
Qed.

Lemma process_candidates_accept (NLP : nat) (x : point) (l m : R)
    (rest : list candidate) (st st1 : RunState) :
  tensor_min (run_L_live st) = Ok m -> m < l ->
  replace_step NLP x l st = Ok st1 ->
  process_candidates NLP ((x, Some l) :: rest) st
  = process_candidates NLP rest st1.
Proof.
  intros Hm Hlt Hrep. cbn [process_candidates]. rewrite Hm. cbn [bind].
  destruct (Rlt_dec m l) as [_ | Hno]; [ | contradiction ].
  rewrite Hrep. reflexivity.
Qed.

Lemma process_candidates_reject (NLP : nat) (x : point) (l m : R)
    (rest : list candidate) (st : RunState) :
  tensor_min (run_L_live st) = Ok m -> ~ m < l ->
  process_candidates NLP ((x, Some l) :: rest) st = Ok st.
Proof.
  intros Hm Hge. cbn [process_candidates]. rewrite Hm. cbn [bind].
  destruct (Rlt_dec m l) as [Hlt | _]; [ contradiction | reflexivity ].
Qed.

Lemma demo_replace :
  exists st1,
    replace_step 3 [1; 0] 1 (initial_state demo_logl demo_self) = Ok st1 /\
    run_X_live st1 = [[1; 0]; [1; 0]; [0; 1]] /\
    run_L_live st1 = [1; 1; 1] /\
    run_samples_X st1 = [[0; 0]] /\
    run_samples_logv st1 = [ln 1] /\
    run_samples_logl st1 = [0] /\
    run_samples_logwt st1 = [0 + ln (1 * (1 - 1 / INR 3) / INR 3)].
Proof.
  unfold initial_state, demo_self. cbn [X_live L_live].
  unfold replace_step. cbn [run_L_live run_X_live].
  assert (Hidx : np_argmin [0; 1; 1] = O).
  { simpl. destruct (Rle_dec 0 (Rmin 1 1)) as [_ | Hno]; [ reflexivity | ].
    exfalso. apply Hno. rewrite Rmin_left; lra. }
  rewrite Hidx. cbn.
  eexists. split; [ reflexivity | ]. cbn.
  repeat split; reflexivity.
Qed.

Lemma demo_process :
  exists st1,
    process_candidates 3 [([1; 0], Some 1)] (initial_state demo_logl demo_self)
    = Ok st1 /\
    run_X_live st1 = [[1; 0]; [1; 0]; [0; 1]] /\
    run_L_live st1 = [1; 1; 1] /\
    run_samples_X st1 = [[0; 0]] /\
    run_samples_logv st1 = [ln 1] /\
    run_samples_logl st1 = [0] /\
    run_samples_logwt st1 = [0 + ln (1 * (1 - 1 / INR 3) / INR 3)].
Proof.
  destruct demo_replace as (st1 & Hrep & Hrest).
  exists st1. split; [ | exact Hrest ].
  exact (process_candidates_accept 3 [1; 0] 1 0 []
           (initial_state demo_logl demo_self) st1 demo_min
           ltac:(lra) Hrep).
Qed.

(** The small run ends with one record in the archive. *)
Lemma demo_run :
  exists self' g',
    nested_sampling eigvalsh_2x2 demo_logl demo_self demo_args demo_rng
    = Ok (self', g') /\
    archive self' = Some demo_archive /\
    L_live self' = Some [1; 1; 1] /\
    X_live self' = [[1; 0]; [1; 0]; [0; 1]].
Proof.
  destruct demo_Lchol as (L & HL & Hlen).
  destruct (demo_gen L Hlen) as (g2 & Hgen).
  destruct demo_process as (st1 & Hproc & HX & HLl & HsX & Hsv & Hsl & Hsw).
  unfold nested_sampling.
  change (length (X_live demo_self)) with 3%nat.
  change (Nat.min (num_batch_samples demo_args) 3) with 1%nat.
  change (max_steps demo_args) with 1%nat.
  cbn [ns_loop]. unfold ns_iteration.
  destruct (np_random_choice 3 1 demo_rng) as [idx g1] eqn:Ech.
  assert (Hidx : idx = [1%nat]) by (injection Ech as <- _; reflexivity).
  cbn [snd] in Hgen.
  subst idx.
  change (run_L_live (initial_state demo_logl demo_self)) with [0; 1; 1].
  change (run_X_live (initial_state demo_logl demo_self)) with demo_X.
  rewrite demo_min. cbn [bind].
  change (xltb (logl_th_max demo_args) (Fin 0)) with false. cbv iota.
  rewrite HL. cbn [bind].
  change (map (fun i => nth i demo_X []) [1%nat]) with [[1; 0]].
  change (_inbound demo_self) with _inbound_unitcube.
  change (num_steps demo_args) with 1%nat.
  change (max_step_size demo_args) with 1.
  change (samples_per_slice demo_args) with 1%nat.
  rewrite Hgen. cbn [bind]. rewrite Hproc. cbn [bind].
  exists (mkSampler (X_init demo_self) (run_X_live st1)
            (Some (run_L_live st1)) (_inbound demo_self)
            (Some (mkArchive (run_samples_X st1) (run_samples_logv st1)
                     (run_samples_logl st1) (run_samples_logwt st1)))), g2.
  split.
  - destruct (xltb (run_Z_rest st1) (Fin (run_Z st1 * epsilon demo_args)));
      reflexivity.
  - cbn [archive L_live X_live]. rewrite HX, HLl, HsX, Hsv, Hsl, Hsw.
    repeat split; reflexivity.
Qed.

(** ** The whitener on degenerate and indefinite matrices *)







(** ** The kernel never raises on a batch with chains and candidates *)

Lemma kernel_step_ok (inbound : point -> bool) (logl_fn : point -> R)
    (Lchol : matrix) (logl_th : xreal) (max_step_size : R)
    (samples_per_slice : nat) (chains : list chain) (g : rng) :
  chains <> [] -> samples_per_slice <> O ->
  exists chains' g',
    kernel_step inbound logl_fn Lchol logl_th max_step_size samples_per_slice
      chains g = Ok (chains', g') /\
    length chains' = length chains.
Proof.
  intros Hc Hs. unfold kernel_step.
  pose proof (get_directions_length (length chains)
                (ncols (map cX chains)) g) as HN.
  destruct (_get_directions (length chains) (ncols (map cX chains)) g)
    as [N g1].
  pose proof (get_slice_sample_points_shape (length chains)
                samples_per_slice g1) as [HL _].
  destruct (_get_slice_sample_points (length chains) samples_per_slice g1)
    as [L0 g2].
  simpl in HN, HL.
  assert (Hb : (length chains =? 0)%nat = false).
  { apply Nat.eqb_neq. destruct chains; [ contradiction | discriminate ]. }
  assert (Hs' : (samples_per_slice =? 0)%nat = false)
    by (apply Nat.eqb_neq; exact Hs).
  rewrite Hb, Hs'. cbn [orb].
  eexists. eexists. split; [ reflexivity | ].
  rewrite length_map, !length_combine, length_map. lia.
Qed.

Lemma kernel_loop_ok (inbound : point -> bool) (logl_fn : point -> R)
    (Lchol : matrix) (logl_th : xreal) (max_step_size : R)
    (samples_per_slice : nat) (steps : nat) :
  samples_per_slice <> O ->
  forall (chains : list chain) (g : rng),
    chains <> [] ->
    exists r,
      kernel_loop inbound logl_fn steps Lchol logl_th max_step_size
        samples_per_slice chains g = Ok r.
Proof.
  intros Hs. induction steps as [ | k IH]; intros chains g Hc.
  - eexists. reflexivity.
  - cbn [kernel_loop].
    destruct (kernel_step_ok inbound logl_fn Lchol logl_th max_step_size
                samples_per_slice chains g Hc Hs)
      as (chains' & g' & E & Hlen).
    rewrite E. cbn [bind].
    apply IH. intros ->. destruct chains; [ contradiction | discriminate ].
Qed.

(** With a factor passed in, [_gen_new_samples] returns. *)
Lemma gen_new_samples_returns (eigvalsh : matrix -> list R)
    (inbound : point -> bool) (logl_fn : point -> R) (X_seeds : list point)
    (logl_th : xreal) (num_steps : nat) (max_step_size : R)
    (samples_per_slice : nat) (L : matrix) (g : rng) :
  X_seeds <> [] -> samples_per_slice <> O ->
  exists r,
    _gen_new_samples eigvalsh inbound logl_fn X_seeds logl_th num_steps
      max_step_size samples_per_slice (Some L) g = Ok r.
Proof.
  intros HX Hs. unfold _gen_new_samples, whitening_factor. cbn [bind].
  destruct (kernel_loop_ok inbound logl_fn L logl_th max_step_size
              samples_per_slice num_steps Hs
              (map (fun x => mkChain x None O) X_seeds) g)
    as ([chains' g'] & E).
  - destruct X_seeds; [ contradiction | discriminate ].
  - rewrite E. cbn [bind]. eexists. reflexivity.
Qed.


(** ** The claims on the small run *)

(** C1, the claim refuted.  The record of the small run has log-volume
    [ln 1] and log-likelihood [0]; its log-weight is [ln (2/9)], not the
    [ln (1/3)] that the logged volume over [N = 3] would give. *)
Lemma logwt_is_not_from_the_logged_volume :
  exists self' g' a,
    nested_sampling eigvalsh_2x2 demo_logl demo_self demo_args demo_rng
    = Ok (self', g') /\
    archive self' = Some a /\
    (0 < length (samples_logwt a))%nat /\
    nth 0 (samples_logwt a) 0 <>
    nth 0 (samples_logl a) 0
    + ln (exp (nth 0 (samples_logv a) 0) / INR (length (X_live demo_self))).
Proof.
  destruct demo_run as (self' & g' & Hrun & Ha & _).
  exists self', g', demo_archive.
  split; [ exact Hrun | ].
  split; [ exact Ha | ].
  split; [ simpl; lia | ].
  unfold demo_archive. cbn [samples_logwt samples_logl samples_logv nth].
  change (length (X_live demo_self)) with 3%nat.
  rewrite ln_1, exp_0. intros H.
  assert (H3 : INR 3 = 3) by (simpl; lra).
  rewrite H3 in H.
  assert (Hln : ln (1 * (1 - 1 / 3) / 3) = ln (1 / 3)) by lra.
  apply ln_inv in Hln; lra.
Qed.

Lemma archive_log_weights_demo :
  exists self' g' a,
    nested_sampling eigvalsh_2x2 demo_logl demo_self demo_args demo_rng
    = Ok (self', g') /\
    archive self' = Some a /\
    (0 < length (samples_logwt a))%nat /\
    length (samples_logwt a) = length (samples_logv a) /\
    length (samples_logwt a) = length (samples_logl a) /\
    nth 0 (samples_logwt a) 0 =
      nth 0 (samples_logl a) 0
      + ln (exp (nth 0 (samples_logv a) 0)
            * (1 - 1 / INR (length (X_live demo_self)))
            / INR (length (X_live demo_self))).
Proof.
  destruct demo_run as (self' & g' & Hrun & Ha & _).
  exists self', g', demo_archive.
  split; [ exact Hrun | ].
  split; [ exact Ha | ].
  split; [ simpl; lia | ].
  apply (archive_log_weights eigvalsh_2x2 demo_logl demo_self self' demo_args
           demo_rng g' demo_archive 0 Hrun Ha).
  simpl. lia.
Defined.

Lemma archive_volumes_demo :
  exists self' g' a,
    nested_sampling eigvalsh_2x2 demo_logl demo_self demo_args demo_rng
    = Ok (self', g') /\
    archive self' = Some a /\
    length (samples_logv a) = 1%nat /\
    (forall k, (k < length (samples_logv a))%nat ->
       nth k (samples_logv a) 0
       = ln (volume_after (length (X_live demo_self)) k) /\
       exp (nth k (samples_logv a) 0)
       = (1 - 1 / INR (length (X_live demo_self))) ^ k) /\
    (forall i j, (i < j)%nat -> (j < length (samples_logv a))%nat ->
       nth j (samples_logv a) 0 < nth i (samples_logv a) 0 /\
       exp (nth j (samples_logv a) 0) < exp (nth i (samples_logv a) 0)).
Proof.
  destruct demo_run as (self' & g' & Hrun & Ha & _).
  exists self', g', demo_archive.
  split; [ exact Hrun | ].
  split; [ exact Ha | ].
  split; [ reflexivity | ].
  exact (archive_volumes eigvalsh_2x2 demo_logl demo_self self' demo_args
           demo_rng g' demo_archive Hrun Ha).
Defined.

(** The batch [demo_candidates] on the small run: one record, and the
    third candidate is never looked at. *)
Lemma demo_candidates_run :
  exists st1,
    process_candidates 3 demo_candidates (initial_state demo_logl demo_self)
    = Ok st1 /\
    records st1 = 1%nat /\ run_L_live st1 = [1; 1; 1].
Proof.
  destruct demo_replace as (st1 & Hrep & _ & HL & HX & _).
  exists st1. split; [ | split ].
  - unfold demo_candidates.
    rewrite (process_candidates_accept 3 [1; 0] 1 0 _
               (initial_state demo_logl demo_self) st1 demo_min
               ltac:(lra) Hrep).
    apply (process_candidates_reject 3 [1; 0] 0 1).
    + rewrite HL. simpl. f_equal. rewrite (Rmin_left 1 1) by lra.
      apply Rmin_left. lra.
    + lra.
  - unfold records. now rewrite HX.
  - exact HL.
Qed.

Lemma process_candidates_stops_demo :
  exists st1,
    process_candidates 3 demo_candidates (initial_state demo_logl demo_self)
    = Ok st1 /\
    records st1 = 1%nat /\
    exists k,
      (k <= length demo_candidates)%nat /\
      records st1 = (records (initial_state demo_logl demo_self) + k)%nat /\
      process_candidates 3 (firstn k demo_candidates)
        (initial_state demo_logl demo_self) = Ok st1 /\
      (forall j c, (j < k)%nat -> nth_error demo_candidates j = Some c ->
         exists st_j,
           process_candidates 3 (firstn j demo_candidates)
             (initial_state demo_logl demo_self) = Ok st_j /\
           records st_j
           = (records (initial_state demo_logl demo_self) + j)%nat /\
           exceeds_minimum c st_j) /\
      (forall c, nth_error demo_candidates k = Some c ->
         ~ exceeds_minimum c st1 /\
         forall post,
           process_candidates 3 (firstn k demo_candidates ++ c :: post)
             (initial_state demo_logl demo_self) = Ok st1).
Proof.
  destruct demo_candidates_run as (st1 & Hrun & Hrec & _).
  exists st1.
  split; [ exact Hrun | ].
  split; [ exact Hrec | ].
  exact (process_candidates_stops_at_first_failure 3 demo_candidates
           (initial_state demo_logl demo_self) st1 Hrun).
Defined.




Lemma pick_spread :
  [pick (0 * tensor_sum [1; 1; 1]) [1; 1; 1];
   pick (1 / 2 * tensor_sum [1; 1; 1]) [1; 1; 1];
   pick (5 / 6 * tensor_sum [1; 1; 1]) [1; 1; 1]]
  = [0; 1; 2]%nat.
Proof.
  unfold tensor_sum. cbn [fold_right pick].
  repeat match goal with
         | |- context [Rlt_dec ?a ?b] => destruct (Rlt_dec a b); try lra
         end.
  reflexivity.
Qed.

(** Resampling three seeds from [archived_self] with [spread_rng] returns
    the three archived points. *)
Lemma archived_seeds :
  exists g1,
    get_constrained_prior_samples archived_self (Some 3%nat) NegInf spread_rng
    = Ok (demo_X, [0; 1; 1], g1).
Proof.
  unfold get_constrained_prior_samples, the_archive, archived_self.
  cbn [bind archive samples_logv samples_logl samples_X map xleb xltb negb
         masked combine filter snd fst].
  assert (Hmax : tensor_max [0; 0; 0] = Ok 0).
  { simpl. f_equal. rewrite (Rmax_left 0 0) by lra. apply Rmax_left. lra. }
  rewrite Hmax. cbn [bind].
  replace (exp (0 - 0)) with 1 by (rewrite Rminus_diag, exp_0; reflexivity).
  unfold torch_multinomial. cbn [Nat.eqb].
  unfold torch_rand, spread_rng.
  cbn [rand_tape rand_pos randn_tape randn_pos choice_tape choice_pos
         seq map Nat.add].
  rewrite pick_spread. cbn.
  eexists. reflexivity.
Qed.

Lemma generate_below_batch_size_demo :
  (1 <= 3)%nat /\ (3 < 100)%nat /\
  (3 / 100 = 0)%nat /\
  generate_constrained_prior_samples eigvalsh_2x2 archived_self demo_logl
    3 NegInf 100 10 spread_rng = Err EmptyCat.
Proof.
  destruct (generate_below_batch_size_fails eigvalsh_2x2 archived_self
              demo_logl 3 NegInf 100 10 spread_rng ltac:(lia) ltac:(lia))
    as (Hdiv & _ & _ & Hmatch).
  destruct archived_seeds as (g1 & Hseeds).
  destruct demo_Lchol as (L & HL & _).
  rewrite Hseeds, HL in Hmatch.
  split; [ lia | ]. split; [ lia | ]. split; [ exact Hdiv | exact Hmatch ].
Defined.

(** C10, the claim refuted.  A request for a single sample does not reach
    the concatenation: the one seed it resamples has no covariance, so the
    whitening of the seeds raises before the loop. *)
Lemma single_sample_request_fails_before_cat :
  (1 <= 1)%nat /\ (1 < 100)%nat /\
  (exists g1,
      get_constrained_prior_samples archived_self (Some 1%nat) NegInf spread_rng
      = Ok ([[0; 0]], [0], g1)) /\
  _calc_Lchol eigvalsh_2x2 [[0; 0]] = Err LinAlgError /\
  generate_constrained_prior_samples eigvalsh_2x2 archived_self demo_logl
    1 NegInf 100 10 spread_rng = Err LinAlgError /\
  generate_constrained_prior_samples eigvalsh_2x2 archived_self demo_logl
    1 NegInf 100 10 spread_rng <> Err EmptyCat.
Proof.
  assert (Hseeds : exists g1,
             get_constrained_prior_samples archived_self (Some 1%nat) NegInf
               spread_rng = Ok ([[0; 0]], [0], g1)).
  { unfold get_constrained_prior_samples, the_archive, archived_self.
    cbn [bind archive samples_logv samples_logl samples_X map xleb xltb negb
           masked combine filter snd fst].
    assert (Hmax : tensor_max [0; 0; 0] = Ok 0).
    { simpl. f_equal. rewrite (Rmax_left 0 0) by lra. apply Rmax_left. lra. }
    rewrite Hmax. cbn [bind].
    replace (exp (0 - 0)) with 1 by (rewrite Rminus_diag, exp_0; reflexivity).
    unfold torch_multinomial. cbn [Nat.eqb].
    unfold torch_rand, spread_rng.
    cbn [rand_tape rand_pos randn_tape randn_pos choice_tape choice_pos
           seq map Nat.add].
    assert (Hpick : pick (0 * tensor_sum [1; 1; 1]) [1; 1; 1] = O).
    { cbn [pick]. destruct (Rlt_dec (0 * tensor_sum [1; 1; 1]) 1) as [_ | Hno];
        [ reflexivity | exfalso; apply Hno; lra ]. }
    rewrite Hpick. cbn.
    eexists. reflexivity. }
  assert (HL : _calc_Lchol eigvalsh_2x2 [[0; 0]] = Err LinAlgError)
    by reflexivity.
  assert (Hgen : generate_constrained_prior_samples eigvalsh_2x2 archived_self
                   demo_logl 1 NegInf 100 10 spread_rng = Err LinAlgError).
  { destruct Hseeds as (g1 & Hs).
    unfold generate_constrained_prior_samples. rewrite Hs. cbn [bind].
    rewrite HL. reflexivity. }
  split; [ lia | ]. split; [ lia | ].
  split; [ exact Hseeds | ].
  split; [ exact HL | ].
  split; [ exact Hgen | ].
  rewrite Hgen. discriminate.
Qed.

(** In the small run the minimum of the live population goes from [0] to
    [1]. *)
Lemma live_minimum_demo :
  exists self' g',
    nested_sampling eigvalsh_2x2 demo_logl demo_self demo_args demo_rng
    = Ok (self', g') /\
    tensor_min (run_L_live (initial_state demo_logl demo_self)) = Ok 0 /\
    L_live self' = Some [1; 1; 1] /\
    exists L' m', L_live self' = Some L' /\ tensor_min L' = Ok m' /\ 0 <= m'.
Proof.
  destruct demo_run as (self' & g' & Hrun & _ & HL & _).
  exists self', g'.
  split; [ exact Hrun | ].
  split; [ exact demo_min | ].
  split; [ exact HL | ].
  destruct live_minimum_never_decreases as (_ & _ & _ & Hwhole).
  exact (Hwhole eigvalsh_2x2 demo_logl demo_self self' demo_args demo_rng g'
           0 demo_min Hrun).
Defined.

(** Resampling before any run, and after a run that archived nothing. *)
Lemma resampling_fails_demo :
  (archive demo_self = None /\
   get_posterior_samples demo_self (Some 5%nat) demo_rng = Err AttributeError /\
   get_constrained_prior_samples demo_self None NegInf demo_rng
   = Err AttributeError) /\
  (nested_sampling eigvalsh_2x2 demo_logl demo_self idle_args demo_rng
   = Ok (idle_self, demo_rng) /\
   archive idle_self = Some (mkArchive [] [] [] []) /\
   get_posterior_samples idle_self (Some 5%nat) demo_rng = Err EmptyReduction /\
   get_constrained_prior_samples idle_self None NegInf demo_rng
   = Err EmptyReduction).
Proof.
  split.
  - split; [ reflexivity | ].
    split.
    + exact (proj1 (proj1 (resampling_fails_on_empty_archive demo_self
                             (Some 5%nat) NegInf demo_rng) eq_refl)).
    + exact (proj2 (proj1 (resampling_fails_on_empty_archive demo_self
                             None NegInf demo_rng) eq_refl)).
  - split; [ reflexivity | ].
    split; [ reflexivity | ].
    assert (He : archive_empty (mkArchive [] [] [] [])) by (repeat split).
    split.
    + exact (proj1 (proj2 (resampling_fails_on_empty_archive idle_self
                             (Some 5%nat) NegInf demo_rng) _ eq_refl He)).
    + exact (proj2 (proj2 (resampling_fails_on_empty_archive idle_self
                             None NegInf demo_rng) _ eq_refl He)).
Defined.

(** * Further properties *)

(** ** What the kernel returns *)

Lemma kernel_step_select (inbound : point -> bool) (logl_fn : point -> R)
    (Lchol : matrix) (logl_th : xreal) (max_step_size : R)
    (samples_per_slice : nat) (chains chains' : list chain) (g g' : rng) :
  kernel_step inbound logl_fn Lchol logl_th max_step_size samples_per_slice
    chains g = Ok (chains', g') ->
  Forall2 (fun c c' =>
             exists pX, c' = select_step inbound logl_fn logl_th pX c)
          chains chains'.
Proof.
  unfold kernel_step. intros H.
  pose proof (get_directions_length (length chains)
                (ncols (map cX chains)) g) as HN.
  destruct (_get_directions (length chains) (ncols (map cX chains)) g)
    as [N g1].
  pose proof (get_slice_sample_points_shape (length chains)
                samples_per_slice g1) as [HL _].
  destruct (_get_slice_sample_points (length chains) samples_per_slice g1)
    as [L0 g2].
  simpl in HN, HL.
  destruct ((length chains =? 0)%nat || (samples_per_slice =? 0)%nat);
    [ discriminate | ].
  injection H as <- <-.
  apply Forall2_map_combine3.
  - exact HN.
  - now rewrite length_map.
  - intros c n l _ _ _. eexists. reflexivity.
Qed.

Lemma select_step_chain_inv (inbound : point -> bool) (logl_fn : point -> R)
    (logl_th : xreal) (pX : list point) (k : nat) (c : chain) :
  chain_inv inbound logl_fn logl_th k c ->
  chain_inv inbound logl_fn logl_th (S k)
    (select_step inbound logl_fn logl_th pX c).
Proof.
  intros (Hk & H0 & H1).
  destruct (select_step_rel inbound logl_fn logl_th pX c)
    as [(s & p & (_ & Hacc & _) & ->) | (_ & ->)].
  - split; [ simpl; lia | ].
    split; [ simpl; discriminate | ].
    intros _. simpl. split; [ reflexivity | exact Hacc ].
  - split; [ lia | ]. split; assumption.
Qed.

Lemma kernel_loop_chain_inv (inbound : point -> bool) (logl_fn : point -> R)
    (Lchol : matrix) (logl_th : xreal) (max_step_size : R)
    (samples_per_slice : nat) (steps : nat) :
  forall (k : nat) (chains chains' : list chain) (g g' : rng),
    Forall (chain_inv inbound logl_fn logl_th k) chains ->
    kernel_loop inbound logl_fn steps Lchol logl_th max_step_size
      samples_per_slice chains g = Ok (chains', g') ->
    Forall (chain_inv inbound logl_fn logl_th (k + steps)) chains' /\
    length chains' = length chains.
Proof.
  induction steps as [ | n IH]; intros k chains chains' g g' Hinv H.
  - simpl in H. injection H as <- _. rewrite Nat.add_0_r. auto.
  - cbn [kernel_loop] in H. inv_bind H as r E. destruct r as [chains1 g1].
    pose proof (kernel_step_select _ _ _ _ _ _ _ _ _ _ E) as Hsel.
    assert (Hinv1 : Forall (chain_inv inbound logl_fn logl_th (S k)) chains1).
    { clear E H. induction Hsel as [ | c c1 cs cs1 (pX & ->) _ IHs];
        constructor; inversion Hinv; subst.
      - now apply select_step_chain_inv.
      - now apply IHs. }
    destruct (IH (S k) chains1 chains' g1 g' Hinv1 H) as [Hf Hl].
    replace (k + S n)%nat with (S k + n)%nat by lia.
    split; [ exact Hf | ].
    rewrite Hl. symmetry. exact (Forall2_length Hsel).
Qed.

Lemma gen_new_samples_returned
    (eigvalsh : matrix -> list R) (inbound : point -> bool)
    (logl_fn : point -> R) (X_seeds : list point) (logl_th : xreal)
    (num_steps : nat) (max_step_size : R) (samples_per_slice : nat)
    (Lchol : option matrix) (g g' : rng) (cands : list candidate) :
  _gen_new_samples eigvalsh inbound logl_fn X_seeds logl_th num_steps
    max_step_size samples_per_slice Lchol g = Ok (cands, g') ->
  (length cands <= length X_seeds)%nat /\
  ((1 <= num_steps)%nat ->
   Forall (fun c => snd c = Some (logl_fn (fst c)) /\
                    above logl_th (logl_fn (fst c)) /\
                    inbound (fst c) = true) cands) /\
  (num_steps = O -> cands = map (fun x => (x, None)) X_seeds).
Proof.
  unfold _gen_new_samples. intros H.
  inv_bind H as L EL. inv_bind H as r E. destruct r as [chains' g1].
  injection H as <- _.
  assert (Hinit : Forall (chain_inv inbound logl_fn logl_th 0)
                    (map (fun x => mkChain x None O) X_seeds)).
  { apply Forall_forall. intros c Hc. apply in_map_iff in Hc.
    destruct Hc as (x & <- & _). split; [ simpl; lia | ].
    split; [ reflexivity | simpl; lia ]. }
  destruct (kernel_loop_chain_inv inbound logl_fn L logl_th max_step_size
              samples_per_slice num_steps 0 _ _ _ _ Hinit E) as [Hinv Hlen].
  rewrite length_map in Hlen.
  split; [ | split ].
  - rewrite length_map, <- Hlen. apply filter_length_le.
  - intros Hs. apply Forall_forall. intros c Hc. apply in_map_iff in Hc.
    destruct Hc as (ch & <- & Hch). apply filter_In in Hch.
    destruct Hch as [Hin Hcnt]. apply Nat.eqb_eq in Hcnt.
    rewrite Forall_forall in Hinv.
    destruct (Hinv ch Hin) as (_ & _ & H1).
    destruct (H1 ltac:(lia)) as [Hl (Ha & Hb)]. simpl. auto.
  - intros ->. simpl in E. injection E as <- _.
    clear. induction X_seeds as [ | x xs IH]; [ reflexivity | ].
    simpl. f_equal. exact IH.
Qed.

Lemma gen_new_samples_candidates_sound
    (eigvalsh : matrix -> list R) (inbound : point -> bool)
    (logl_fn : point -> R) (X_seeds : list point) (logl_th : xreal)
    (num_steps : nat) (max_step_size : R) (samples_per_slice : nat)
    (Lchol : option matrix) (g g' : rng) (cands : list candidate) :
  _gen_new_samples eigvalsh inbound logl_fn X_seeds logl_th num_steps
    max_step_size samples_per_slice Lchol g = Ok (cands, g') ->
  Forall (sound_candidate inbound logl_fn) cands.
Proof.
  unfold _gen_new_samples. intros H.
  inv_bind H as L EL. inv_bind H as r E. destruct r as [chains' g1].
  injection H as <- _.
  assert (Hinit : Forall (chain_inv inbound logl_fn logl_th 0)
                    (map (fun x => mkChain x None O) X_seeds)).
  { apply Forall_forall. intros c Hc. apply in_map_iff in Hc.
    destruct Hc as (x & <- & _). split; [ simpl; lia | ].
    split; [ reflexivity | simpl; lia ]. }
  destruct (kernel_loop_chain_inv inbound logl_fn L logl_th max_step_size
              samples_per_slice num_steps 0 _ _ _ _ Hinit E) as [Hinv _].
  apply Forall_forall. intros c Hc. apply in_map_iff in Hc.
  destruct Hc as (ch & <- & Hch). apply filter_In in Hch.
  destruct Hch as [Hin _]. rewrite Forall_forall in Hinv.
  destruct (Hinv ch Hin) as (_ & H0 & H1).
  intros l Hl. simpl in *.
  destruct (cC ch) as [ | n] eqn:En.
  - rewrite (H0 eq_refl) in Hl. discriminate.
  - destruct (H1 ltac:(lia)) as [Hlog [_ Hb]].
    rewrite Hlog in Hl. injection Hl as <-. auto.
Qed.

(** ** Invariants of the main loop *)

Section LoopInvariant.

Variable eigvalsh : matrix -> list R.
Variable logl_fn : point -> R.
Variable self : NestedSampler.
Variable args : ns_args.
Variable NLP : nat.
Variable P : RunState -> Prop.

(** [P] survives the replacement of the minimum by a sound candidate that
    beats it. *)
Hypothesis P_replace :
  forall st st' x l m,
    P st -> run_invariant NLP st -> (2 <= NLP)%nat ->
    sound_candidate (_inbound self) logl_fn (x, Some l) ->
    tensor_min (run_L_live st) = Ok m -> m < l ->
    replace_step NLP x l st = Ok st' ->
    P st'.

Lemma process_candidates_preserves (cands : list candidate) :
  (2 <= NLP)%nat ->
  Forall (sound_candidate (_inbound self) logl_fn) cands ->
  forall st st',
    run_invariant NLP st -> P st ->
    process_candidates NLP cands st = Ok st' -> P st'.
Proof.
  intros HN Hs. induction Hs as [ | [x l] rest Hc _ IH]; intros st st' Hinv HP H;
    simpl in H.
  - now injection H as <-.
  - inv_bind H as m Em. destruct l as [l | ]; [ | now injection H as <- ].
    destruct (Rlt_dec m l) as [Hlt | _]; [ | now injection H as <- ].
    inv_bind H as st1 E1.
    apply (IH st1 st'); [ | | exact H ].
    + eapply replace_step_invariant; eauto.
    + eapply P_replace; eauto.
Qed.

Lemma ns_iteration_preserves (B : nat) (st st' : RunState) (g g' : rng)
    (fl : flow) :
  run_invariant NLP st -> P st ->
  ns_iteration eigvalsh logl_fn self args NLP B st g = Ok (fl, st', g') ->
  P st'.
Proof.
  intros Hinv HP H. unfold ns_iteration in H.
  destruct (np_random_choice NLP B g) as [idx g1].
  inv_bind H as m Em.
  destruct (xltb (logl_th_max args) (Fin m)).
  - injection H as _ <- _. exact HP.
  - inv_bind H as Lchol EL. inv_bind H as r Eg. destruct r as [cands g2].
    inv_bind H as st1 Ep.
    assert (HN : (2 <= NLP)%nat).
    { apply calc_Lchol_two_points in EL. destruct Hinv as (HX & _). lia. }
    assert (HP1 : P st1).
    { apply (process_candidates_preserves cands HN) with (st := st);
        [ | exact Hinv | exact HP | exact Ep ].
      exact (gen_new_samples_candidates_sound _ _ _ _ _ _ _ _ _ _ _ _ Eg). }
    destruct (xltb (run_Z_rest st1) (Fin (run_Z st1 * epsilon args)));
      injection H as _ <- _; exact HP1.
Qed.

Lemma ns_loop_preserves (steps B : nat) :
  forall (st st' : RunState) (g g' : rng),
    run_invariant NLP st -> P st ->
    ns_loop eigvalsh logl_fn self args steps NLP B st g = Ok (st', g') ->
    P st'.
Proof.
  induction steps as [ | k IH]; intros st st' g g' Hinv HP H; simpl in H.
  - injection H as <- _. exact HP.
  - inv_bind H as r E. destruct r as [[fl st1] g1].
    pose proof (ns_iteration_invariant eigvalsh logl_fn self args NLP B
                  st st1 g g1 fl Hinv E) as Hinv1.
    pose proof (ns_iteration_preserves B st st1 g g1 fl Hinv HP E) as HP1.
    destruct fl.
    + eapply IH; eauto.
    + injection H as <- _. exact HP1.
Qed.

End LoopInvariant.

Lemma nested_sampling_final (eigvalsh : matrix -> list R)
    (logl_fn : point -> R) (self self' : NestedSampler) (args : ns_args)
    (g g' : rng) :
  nested_sampling eigvalsh logl_fn self args g = Ok (self', g') ->
  exists st,
    ns_loop eigvalsh logl_fn self args (max_steps args)
      (length (X_live self))
      (Nat.min (num_batch_samples args) (length (X_live self)))
      (initial_state logl_fn self) g = Ok (st, g') /\
    self' = mkSampler (X_init self) (run_X_live st) (Some (run_L_live st))
              (_inbound self)
              (Some (mkArchive (run_samples_X st) (run_samples_logv st)
                       (run_samples_logl st) (run_samples_logwt st))).
Proof.
  unfold nested_sampling. intros H. inv_bind H as r E. destruct r as [st g1].
  injection H as <- <-. exists st. auto.
Qed.

(** X2.  A run keeps the shape of the sampler: the initial points and the
    boundary predicate are untouched, the live population has as many points
    and as many log-likelihoods as before, and the four archive sequences
    have one common length. *)
Theorem nested_sampling_keeps_shape
    (eigvalsh : matrix -> list R) (logl_fn : point -> R)
    (self self' : NestedSampler) (args : ns_args) (g g' : rng) :
  nested_sampling eigvalsh logl_fn self args g = Ok (self', g') ->
  X_init self' = X_init self /\
  length (X_live self') = length (X_live self) /\
  (exists L', L_live self' = Some L' /\
              length L' = length (run_L_live (initial_state logl_fn self))) /\
  exists a,
    archive self' = Some a /\
    length (samples_logv a) = length (samples_X a) /\
    length (samples_logl a) = length (samples_X a) /\
    length (samples_logwt a) = length (samples_X a).
Proof.
  intros H. destruct (nested_sampling_final _ _ _ _ _ _ _ H) as (st & Hloop & ->).
  pose proof (ns_loop_invariant eigvalsh logl_fn self args _ _ _ _ _ _ _
                (initial_state_invariant logl_fn self) Hloop)
    as (HX & _ & Hl & Hw & HsX & _).
  assert (HL : length (run_L_live st)
               = length (run_L_live (initial_state logl_fn self))).
  { refine (ns_loop_preserves eigvalsh logl_fn self args (length (X_live self))
             (fun s => length (run_L_live s)
                       = length (run_L_live (initial_state logl_fn self)))
             _ _ _ _ _ _ _ (initial_state_invariant logl_fn self) _ Hloop).
    - intros s s' x l m HP _ _ _ _ _ Hrep.
      apply replace_step_inv in Hrep.
      destruct Hrep as (? & ? & _ & _ & EL & _).
      now rewrite EL, set_at_length.
    - reflexivity. }
  cbn [X_init X_live L_live archive].
  split; [ reflexivity | ].
  split; [ exact HX | ].
  split; [ eexists; split; [ reflexivity | exact HL ] | ].
  eexists. split; [ reflexivity | ]. cbn. lia.
Qed.

Lemma nondecreasing_app (t : list R) (a : R) :
  nondecreasing t -> (forall l, In l t -> l <= a) -> nondecreasing (t ++ [a]).
Proof.
  intros Hs Hle i j Hij Hj. rewrite length_app in Hj. simpl in Hj.
  rewrite !nth_app_last.
  destruct (Nat.ltb_spec j (length t)) as [Hjl | Hjl].
  - destruct (Nat.ltb_spec i (length t)) as [_ | Hil]; [ | lia ].
    now apply Hs.
  - replace j with (length t) by lia. rewrite Nat.eqb_refl.
    destruct (Nat.ltb_spec i (length t)) as [Hil | Hil].
    + apply Hle. now apply nth_In.
    + replace i with (length t) by lia. rewrite Nat.eqb_refl. lra.
Qed.

(** X3.  The archive is ordered by log-likelihood: the retired
    log-likelihoods are non-decreasing along the archive, and none exceeds
    the minimum of the live population the run ends with. *)
Theorem nested_sampling_archive_ordered
    (eigvalsh : matrix -> list R) (logl_fn : point -> R)
    (self self' : NestedSampler) (args : ns_args) (g g' : rng) :
  nested_sampling eigvalsh logl_fn self args g = Ok (self', g') ->
  exists a L',
    archive self' = Some a /\ L_live self' = Some L' /\
    nondecreasing (samples_logl a) /\
    forall m l, tensor_min L' = Ok m -> In l (samples_logl a) -> l <= m.
Proof.
  intros H. destruct (nested_sampling_final _ _ _ _ _ _ _ H) as (st & Hloop & ->).
  cbn [archive L_live]. eexists. eexists.
  split; [ reflexivity | ]. split; [ reflexivity | ]. cbn [samples_logl].
  refine (ns_loop_preserves eigvalsh logl_fn self args (length (X_live self))
             (fun s => nondecreasing (run_samples_logl s) /\
                     forall m l, tensor_min (run_L_live s) = Ok m ->
                                 In l (run_samples_logl s) -> l <= m)
             _ _ _ _ _ _ _ (initial_state_invariant logl_fn self) _ Hloop).
  - intros s s' x l m [Hs Hle] _ _ _ Hm Hlt Hrep.
    destruct (replace_step_min _ _ _ _ _ _ Hm Hlt Hrep) as (m' & Hm' & Hmm').
    pose proof (get_argmin _ _ Hm) as Hget.
    apply replace_step_inv in Hrep.
    destruct Hrep as (Lmin & Xmin & HgL & _ & _ & _ & _ & _ & Esl & _).
    rewrite Hget in HgL. injection HgL as <-.
    rewrite Esl. split.
    + apply nondecreasing_app; [ exact Hs | ]. intros l0 Hl0. now apply (Hle m).
    + intros m1 l1 Hm1 Hin. rewrite Hm' in Hm1. injection Hm1 as <-.
      apply in_app_or in Hin. destruct Hin as [Hin | [<- | []]].
      * pose proof (Hle m l1 Hm Hin). lra.
      * exact Hmm'.
  - split.
    + intros i j _ Hj. simpl in Hj. lia.
    + intros m l _ [].
Qed.

Lemma set_at_map {A B : Type} (f : A -> B) (t : list A) (i : nat) (v : A) :
  map f (set_at t i v) = set_at (map f t) i (f v).
Proof.
  revert i; induction t as [ | a t IH]; intros [ | i]; simpl; auto.
  now rewrite IH.
Qed.

Lemma get_map {A B : Type} (f : A -> B) (t : list A) (i : nat) (a : A) :
  get t i = Ok a -> get (map f t) i = Ok (f a).
Proof.
  unfold get. rewrite nth_error_map.
  destruct (nth_error t i); simpl; [ | discriminate ].
  intros H. now injection H as ->.
Qed.

Lemma get_In {A : Type} (t : list A) (i : nat) (a : A) :
  get t i = Ok a -> In a t.
Proof.
  unfold get. destruct (nth_error t i) eqn:E; [ | discriminate ].
  intros H. injection H as <-. eapply nth_error_In; eauto.
Qed.

Lemma nested_sampling_points_preserved
    (eigvalsh : matrix -> list R) (logl_fn : point -> R)
    (self self' : NestedSampler) (args : ns_args) (g g' : rng) :
  L_live self = None \/ L_live self = Some (map logl_fn (X_live self)) ->
  Forall (fun x => _inbound self x = true) (X_live self) ->
  nested_sampling eigvalsh logl_fn self args g = Ok (self', g') ->
  Forall (fun x => _inbound self x = true) (X_live self') /\
  L_live self' = Some (map logl_fn (X_live self')) /\
  exists a,
    archive self' = Some a /\
    Forall (fun x => _inbound self x = true) (samples_X a) /\
    samples_logl a = map logl_fn (samples_X a).
Proof.
  intros HL HX0 H.
  assert (HL0 : run_L_live (initial_state logl_fn self)
                = map logl_fn (X_live self)).
  { unfold initial_state. cbn [run_L_live].
    destruct HL as [-> | ->]; reflexivity. }
  clear HL.
  destruct (nested_sampling_final _ _ _ _ _ _ _ H) as (st & Hloop & ->).
  cbn [archive L_live X_live].
  assert (HP : (Forall (fun x => _inbound self x = true) (run_X_live st) /\
                run_L_live st = map logl_fn (run_X_live st)) /\
               Forall (fun x => _inbound self x = true) (run_samples_X st) /\
               run_samples_logl st = map logl_fn (run_samples_X st)).
  { refine (ns_loop_preserves eigvalsh logl_fn self args (length (X_live self))
             (fun s =>
                (Forall (fun x => _inbound self x = true) (run_X_live s) /\
                 run_L_live s = map logl_fn (run_X_live s)) /\
                Forall (fun x => _inbound self x = true) (run_samples_X s) /\
                run_samples_logl s = map logl_fn (run_samples_X s))
             _ _ _ _ _ _ _ (initial_state_invariant logl_fn self) _ Hloop).
    - intros s s' x l m [[HXs HLs] [HaX HaL]] _ _ Hsound _ _ Hrep.
      destruct (Hsound l eq_refl) as [Hl Hin]. simpl in Hl, Hin.
      apply replace_step_inv in Hrep.
      destruct Hrep as (Lmin & Xmin & HgL & HgX & EL & EX & _ & EsX & Esl & _).
      rewrite EL, EX, EsX, Esl.
      assert (HLmin : Lmin = logl_fn Xmin).
      { apply (get_map logl_fn) in HgX. rewrite <- HLs in HgX. congruence. }
      repeat split.
      + apply Forall_forall. intros y Hy. apply set_at_In in Hy.
        destruct Hy as [-> | Hy]; [ exact Hin | ].
        rewrite Forall_forall in HXs. now apply HXs.
      + now rewrite set_at_map, HLs, Hl.
      + apply Forall_app. split; [ exact HaX | ].
        constructor; [ | constructor ].
        rewrite Forall_forall in HXs. apply HXs. eapply get_In; eauto.
      + now rewrite map_app, HaL, HLmin.
    - split; [ split | split ].
      + exact HX0.
      + exact HL0.
      + constructor.
      + reflexivity. }
  destruct HP as [[H1 H2] [H3 H4]].
  split; [ exact H1 | ].
  split; [ now rewrite H2 | ].
  eexists. split; [ reflexivity | ]. cbn. auto.
Qed.

(** ** Edge cases of the run *)

(** X5.  When the minimum of the live log-likelihoods is already above
    [logl_th_max], the first pass stops the run before any proposal: the
    population is returned as it was and the archive has no record. *)
Theorem nested_sampling_threshold_reached
    (eigvalsh : matrix -> list R) (logl_fn : point -> R)
    (self : NestedSampler) (args : ns_args) (g : rng) (m : R) :
  (1 <= max_steps args)%nat ->
  tensor_min (run_L_live (initial_state logl_fn self)) = Ok m ->
  xltb (logl_th_max args) (Fin m) = true ->
  exists g',
    nested_sampling eigvalsh logl_fn self args g =
    Ok (mkSampler (X_init self) (X_live self)
          (Some (run_L_live (initial_state logl_fn self))) (_inbound self)
          (Some (mkArchive [] [] [] [])), g').
Proof.
  intros Hsteps Hm Hth. unfold nested_sampling.
  destruct (max_steps args) as [ | k]; [ lia | ].
  cbn [ns_loop]. unfold ns_iteration.
  destruct (np_random_choice (length (X_live self))
              (Nat.min (num_batch_samples args) (length (X_live self))) g)
    as [idx g1].
  rewrite Hm. cbn [bind]. rewrite Hth. cbn [bind].
  exists g1. reflexivity.
Qed.

Lemma calc_Lchol_needs_two_points (eigvalsh : matrix -> list R)
    (X : list point) :
  (length X <= 1)%nat ->
  _calc_Lchol eigvalsh X = Err ShapeError \/
  _calc_Lchol eigvalsh X = Err LinAlgError.
Proof.
  intros H. unfold _calc_Lchol, torch_cov.
  destruct (ncols X =? 1)%nat; [ now left | right ].
  destruct (Nat.leb_spec (length X) 1); [ reflexivity | lia ].
Qed.

(** X6.  A population of fewer than two live points cannot be run: unless
    the threshold stops the first pass, that pass raises, at the minimum of
    an empty population or at the whitening of a single point. *)
Theorem nested_sampling_needs_two_points
    (eigvalsh : matrix -> list R) (logl_fn : point -> R)
    (self : NestedSampler) (args : ns_args) (g : rng) :
  (length (X_live self) <= 1)%nat ->
  (1 <= max_steps args)%nat ->
  (forall m, tensor_min (run_L_live (initial_state logl_fn self)) = Ok m ->
             xltb (logl_th_max args) (Fin m) = false) ->
  exists e,
    nested_sampling eigvalsh logl_fn self args g = Err e /\
    (e = EmptyReduction \/ e = ShapeError \/ e = LinAlgError).
Proof.
  intros HN Hsteps Hth. unfold nested_sampling.
  destruct (max_steps args) as [ | k]; [ lia | ].
  cbn [ns_loop]. unfold ns_iteration.
  destruct (np_random_choice (length (X_live self))
              (Nat.min (num_batch_samples args) (length (X_live self))) g)
    as [idx g1].
  destruct (tensor_min (run_L_live (initial_state logl_fn self)))
    as [m | e] eqn:Em.
  - cbn [bind]. rewrite (Hth m eq_refl).
    change (run_X_live (initial_state logl_fn self)) with (X_live self).
    destruct (calc_Lchol_needs_two_points eigvalsh (X_live self) HN)
      as [-> | ->]; cbn [bind]; eexists; split; try reflexivity; auto.
  - cbn [bind]. exists e. split; [ reflexivity | ].
    destruct (run_L_live (initial_state logl_fn self)); simpl in Em;
      [ injection Em as <-; auto | discriminate ].
Qed.

(** X7.  A population of one-dimensional points cannot be run either: the
    covariance of a single variable is a scalar, which the factorisation
    rejects at the first whitening. *)
Theorem nested_sampling_rejects_one_dimension
    (eigvalsh : matrix -> list R) (logl_fn : point -> R)
    (self : NestedSampler) (args : ns_args) (g : rng) (m : R) :
  ncols (X_live self) = 1%nat ->
  (1 <= max_steps args)%nat ->
  tensor_min (run_L_live (initial_state logl_fn self)) = Ok m ->
  xltb (logl_th_max args) (Fin m) = false ->
  nested_sampling eigvalsh logl_fn self args g = Err ShapeError.
Proof.
  intros HD Hsteps Hm Hth. unfold nested_sampling.
  destruct (max_steps args) as [ | k]; [ lia | ].
  cbn [ns_loop]. unfold ns_iteration.
  destruct (np_random_choice (length (X_live self))
              (Nat.min (num_batch_samples args) (length (X_live self))) g)
    as [idx g1].
  rewrite Hm. cbn [bind]. rewrite Hth.
  change (run_X_live (initial_state logl_fn self)) with (X_live self).
  unfold _calc_Lchol. rewrite HD. reflexivity.
Qed.

(** X8.  The evidence the loop accumulates can be recovered from the
    archive: after any number of passes from the initial state, every
    increment is the exponential of the record's log-weight and the running
    evidence [Z] is the sum of these exponentials. *)
Theorem evidence_is_sum_of_weights
    (eigvalsh : matrix -> list R) (logl_fn : point -> R)
    (self : NestedSampler) (args : ns_args) (steps B : nat)
    (st : RunState) (g g' : rng) :
  ns_loop eigvalsh logl_fn self args steps (length (X_live self)) B
    (initial_state logl_fn self) g = Ok (st, g') ->
  run_samples_Z st = map exp (run_samples_logwt st) /\
  run_Z st = tensor_sum (map exp (run_samples_logwt st)) /\
  0 <= run_Z st.
Proof.
  intros Hloop.
  assert (Hsum : forall t a, tensor_sum (t ++ [a]) = tensor_sum t + a).
  { intros t a. unfold tensor_sum. induction t as [ | x t IH]; simpl;
      [ lra | rewrite IH; lra ]. }
  refine (ns_loop_preserves eigvalsh logl_fn self args (length (X_live self))
            (fun s => run_samples_Z s = map exp (run_samples_logwt s) /\
                      run_Z s = tensor_sum (map exp (run_samples_logwt s)) /\
                      0 <= run_Z s)
            _ _ _ _ _ _ _ (initial_state_invariant logl_fn self) _ Hloop).
  - intros s s' x l m (HZs & HZ & Hpos) Hinv HN _ _ _ Hrep.
    destruct Hinv as (_ & HV & _).
    apply replace_step_inv in Hrep.
    destruct Hrep as (Lmin & Xmin & _ & _ & _ & _ & EV & _ & _ & _
                      & EsZ & Esw & EZ).
    assert (HVpos : 0 < run_V s' / INR (length (X_live self))).
    { rewrite EV, HV.
      pose proof (volume_after_pos (length (X_live self))
                    (length (run_samples_logv s)) HN).
      pose proof (shrink_factor_bounds (length (X_live self)) HN) as [Hq _].
      assert (0 < INR (length (X_live self))) by (apply lt_0_INR; lia).
      apply Rdiv_lt_0_compat; [ | assumption ].
      apply Rmult_lt_0_compat; assumption. }
    assert (Hexp : exp (Lmin + ln (run_V s' / INR (length (X_live self))))
                   = run_V s' / INR (length (X_live self)) * exp Lmin).
    { rewrite exp_plus, exp_ln by exact HVpos. ring. }
    rewrite EsZ, Esw, EZ, map_app. cbn [map]. rewrite Hexp, Hsum, <- HZs.
    split; [ reflexivity | ].
    split; [ rewrite HZ, HZs; reflexivity | ].
    pose proof (exp_pos Lmin). nra.
  - cbn. split; [ reflexivity | split; lra ].
Qed.

(** ** Bounds on the effective sample size *)

Lemma sum_squares_bounds (w : list R) :
  Forall (fun x => 0 < x) w ->
  0 <= tensor_sum w /\
  tensor_sum (map (fun x => x ^ 2) w) <= tensor_sum w ^ 2 /\
  tensor_sum w ^ 2 <= INR (length w) * tensor_sum (map (fun x => x ^ 2) w) /\
  0 <= tensor_sum (map (fun x => x ^ 2) w).
Proof.
  unfold tensor_sum. induction 1 as [ | x w Hx _ IH].
  - simpl. lra.
  - destruct IH as (Hs & Hlo & Hhi & Hq).
    change (length (x :: w)) with (S (length w)). rewrite S_INR.
    cbn [map fold_right].
    set (s := fold_right Rplus 0 w) in *.
    set (q := fold_right Rplus 0 (map (fun x => x ^ 2) w)) in *.
    pose proof (pos_INR (length w)) as Hn.
    set (n := INR (length w)) in *.
    assert (Hsq : 0 <= (s - n * x) ^ 2) by apply pow2_ge_0.
    assert (Hcross : 2 * s * x <= q + n * (x * x)).
    { destruct (Req_dec n 0) as [Hn0 | Hn0].
      - rewrite Hn0 in *. assert (Hs0 : s = 0) by nra. rewrite Hs0. nra.
      - assert (Hnpos : 0 < n) by lra.
        apply (Rmult_le_reg_l n); [ exact Hnpos | ]. nra. }
    repeat split; nra.
Qed.


Lemma tensor_sum_pos (w : list R) :
  w <> [] -> Forall (fun x => 0 < x) w -> 0 < tensor_sum w.
Proof.
  intros Hne Hpos. destruct w as [ | x w]; [ contradiction | ].
  inversion Hpos as [ | ? ? Hx Hw]; subst.
  destruct (sum_squares_bounds w Hw) as (Hs & _).
  unfold tensor_sum in *. simpl. lra.
Qed.

Lemma tensor_max_nonempty (t : list R) :
  t <> [] -> exists m, tensor_max t = Ok m.
Proof. destruct t; [ contradiction | ]. intros _. eexists. reflexivity. Qed.

(** The weights both resamplers draw with are positive. *)
Lemma exp_weights_pos (t : list R) (m : R) :
  Forall (fun x => 0 < x) (map (fun x => exp (x - m)) t).
Proof.
  apply Forall_forall. intros w Hw. apply in_map_iff in Hw.
  destruct Hw as (x & <- & _). apply exp_pos.
Qed.

Lemma normalised_weights_pos (w : list R) :
  w <> [] -> Forall (fun x => 0 < x) w ->
  Forall (fun x => 0 < x) (map (fun x => x / tensor_sum w) w).
Proof.
  intros Hne Hpos. pose proof (tensor_sum_pos w Hne Hpos) as Hs.
  apply Forall_forall. intros y Hy. apply in_map_iff in Hy.
  destruct Hy as (x & <- & Hx). rewrite Forall_forall in Hpos.
  apply Rdiv_lt_0_compat; [ now apply Hpos | exact Hs ].
Qed.

Lemma masked_filter {A : Type} (f : A -> bool) (t : list A) :
  masked t (map f t) = filter f t.
Proof.
  unfold masked. induction t as [ | a t IH]; simpl; [ reflexivity | ].
  destruct (f a); simpl; now rewrite IH.
Qed.



(** ** What the resamplers return *)

Lemma pick_in_range (w : list R) :
  forall v, 0 <= v -> v < tensor_sum w -> (pick v w < length w)%nat.
Proof.
  unfold tensor_sum. induction w as [ | x w IH]; intros v Hv Hlt; simpl in *.
  - lra.
  - destruct (Rlt_dec v x) as [_ | Hge]; [ lia | ].
    apply -> Nat.succ_lt_mono. apply IH; lra.
Qed.

Lemma index_all_in_range {A : Type} (d : A) (t : list A) (idx : list nat) :
  Forall (fun i => (i < length t)%nat) idx ->
  index_all t idx = Ok (map (fun i => nth i t d) idx).
Proof.
  induction 1 as [ | i idx Hi _ IH]; [ reflexivity | ].
  cbn [index_all map]. unfold get.
  destruct (nth_error t i) as [a | ] eqn:E;
    [ | apply nth_error_None in E; lia ].
  cbn [bind]. rewrite IH. cbn [bind].
  now rewrite (nth_error_nth _ _ d E).
Qed.

Lemma index_all_members {A : Type} (t : list A) (idx : list nat) :
  forall r, index_all t idx = Ok r ->
            length r = length idx /\ Forall (fun a => In a t) r.
Proof.
  induction idx as [ | i idx IH]; intros r H; cbn [index_all] in H.
  - injection H as <-. split; [ reflexivity | constructor ].
  - inv_bind H as a Ea. inv_bind H as r' Er. injection H as <-.
    destruct (IH r' eq_refl) as [Hl Hf].
    split; [ simpl; now rewrite Hl | ].
    constructor; [ eapply get_In; eauto | exact Hf ].
Qed.

(** [torch.multinomial] on positive weights and uniform draws of [0, 1):
    as many indices as asked for, all within the weights. *)
Lemma torch_multinomial_in_range (wt : list R) (N : nat) (g : rng) :
  wt <> [] -> Forall (fun x => 0 < x) wt -> (1 <= N)%nat ->
  (forall k, (k < N)%nat -> 0 <= rand_tape g (rand_pos g + k) < 1) ->
  exists idx,
    torch_multinomial wt N g = Ok (idx, snd (torch_rand N g)) /\
    length idx = N /\
    Forall (fun i => (i < length wt)%nat) idx.
Proof.
  intros Hne Hpos HN Hu. unfold torch_multinomial.
  destruct (Nat.eqb_spec N 0) as [-> | _]; [ lia | ].
  unfold torch_rand. cbn [snd].
  eexists. split; [ reflexivity | ].
  split; [ now rewrite !length_map, length_seq | ].
  apply Forall_forall. intros i Hi.
  apply in_map_iff in Hi. destruct Hi as (u & <- & Hin).
  apply in_map_iff in Hin. destruct Hin as (k & <- & Hk).
  apply in_seq in Hk. destruct (Hu k ltac:(lia)) as [H0 H1].
  pose proof (tensor_sum_pos wt Hne Hpos) as Hs.
  apply pick_in_range; nra.
Qed.

(** X10.  [get_posterior_samples] on an archive with records: asked for
    [N >= 1] samples, with uniform draws in [0, 1), it returns exactly [N]
    positions and [N] log-likelihoods, the i-th pair being one record of the
    archive, and it consumes [N] uniform draws. *)
Theorem get_posterior_samples_returns_records
    (self : NestedSampler) (a : Archive) (N : nat) (g : rng) :
  archive self = Some a ->
  samples_logwt a <> [] ->
  length (samples_X a) = length (samples_logwt a) ->
  length (samples_logl a) = length (samples_logwt a) ->
  (1 <= N)%nat ->
  (forall k, (k < N)%nat -> 0 <= rand_tape g (rand_pos g + k) < 1) ->
  exists idx,
    length idx = N /\
    Forall (fun i => (i < length (samples_logwt a))%nat) idx /\
    get_posterior_samples self (Some N) g =
    Ok (map (fun i => nth i (samples_X a) []) idx,
        map (fun i => nth i (samples_logl a) 0) idx,
        snd (torch_rand N g)).
Proof.
  intros Ha Hne HX HL HN Hu.
  unfold get_posterior_samples, the_archive. rewrite Ha. cbn [bind].
  destruct (tensor_max_nonempty _ Hne) as (m & Hm). rewrite Hm. cbn [bind].
  set (w := map (fun x => exp (x - m)) (samples_logwt a)).
  assert (Hw : w <> []) by (unfold w; destruct (samples_logwt a);
                            [ contradiction | discriminate ]).
  pose proof (normalised_weights_pos w Hw (exp_weights_pos _ m)) as Hpos.
  assert (Hw' : map (fun x => x / tensor_sum w) w <> [])
    by (destruct w; [ contradiction | discriminate ]).
  destruct (torch_multinomial_in_range _ N g Hw' Hpos HN Hu)
    as (idx & Hmul & Hlen & Hrange).
  rewrite Hmul. cbn [bind].
  assert (Hr : Forall (fun i => (i < length (samples_logwt a))%nat) idx).
  { eapply Forall_impl; [ | exact Hrange ]. intros i Hi. cbv beta in Hi.
    subst w. now rewrite !length_map in Hi. }
  exists idx. split; [ exact Hlen | ]. split; [ exact Hr | ].
  rewrite (@index_all_in_range point [] (samples_X a) idx)
    by (now rewrite HX).
  cbn [bind].
  rewrite (index_all_in_range 0 (samples_logl a) idx)
    by (now rewrite HL).
  reflexivity.
Qed.



(** X12.  Whatever [get_constrained_prior_samples] returns passes the
    likelihood cut: as many positions as log-likelihoods, as many as the
    count asked for, every log-likelihood an archived one that is at least
    [min_logl], every position an archived one. *)
Theorem get_constrained_prior_samples_above_cut
    (self : NestedSampler) (a : Archive) (N : nat) (min_logl : xreal)
    (g g' : rng) (Xs : list point) (Ls : list R) :
  archive self = Some a ->
  get_constrained_prior_samples self (Some N) min_logl g = Ok (Xs, Ls, g') ->
  length Xs = N /\ length Ls = N /\
  Forall (fun x => In x (samples_X a)) Xs /\
  Forall (fun l => In l (samples_logl a) /\ xleb min_logl (Fin l) = true) Ls.
Proof.
  intros Ha H. unfold get_constrained_prior_samples, the_archive in H.
  rewrite Ha in H. cbn [bind] in H.
  inv_bind H as m Em. inv_bind H as r Er. destruct r as [idx g1].
  inv_bind H as Xs' EX. inv_bind H as Ls' EL. injection H as <- <- _.
  assert (Hidx : length idx = N).
  { unfold torch_multinomial in Er. destruct (N =? 0)%nat; [ discriminate | ].
    unfold torch_rand in Er. injection Er as <- _.
    now rewrite !length_map, length_seq. }
  destruct (index_all_members _ _ _ EX) as [HlX HfX].
  destruct (index_all_members _ _ _ EL) as [HlL HfL].
  split; [ congruence | ]. split; [ congruence | ].
  split.
  - eapply Forall_impl; [ | exact HfX ]. intros x Hx.
    unfold masked in Hx. apply in_map_iff in Hx.
    destruct Hx as ([x' b] & <- & Hin). apply filter_In in Hin.
    destruct Hin as [Hin _]. now apply in_combine_l in Hin.
  - eapply Forall_impl; [ | exact HfL ]. intros l Hl.
    rewrite masked_filter in Hl. apply filter_In in Hl. exact Hl.
Qed.

(** X13.  A likelihood cut above every archived log-likelihood leaves
    nothing to resample: [get_constrained_prior_samples] raises at the
    maximum of an empty selection, whether the count is given or not. *)
Theorem get_constrained_prior_samples_empty_cut
    (self : NestedSampler) (a : Archive) (N : option nat) (min_logl : xreal)
    (g : rng) :
  archive self = Some a ->
  Forall (fun l => xleb min_logl (Fin l) = false) (samples_logl a) ->
  get_constrained_prior_samples self N min_logl g = Err EmptyReduction /\
  get_constrained_prior_neff self min_logl = Err EmptyReduction.
Proof.
  intros Ha Hcut.
  assert (Hsel : masked (samples_logv a)
                   (map (fun l => xleb min_logl (Fin l)) (samples_logl a)) = []).
  { unfold masked.
    assert (Hf : forall (t : list R) (ls : list R),
               Forall (fun l => xleb min_logl (Fin l) = false) ls ->
               filter snd (combine t (map (fun l => xleb min_logl (Fin l)) ls))
               = []).
    { intros t ls Hls. revert t. induction Hls as [ | l ls Hl _ IH];
        intros [ | x t]; simpl; try reflexivity.
      rewrite Hl. apply IH. }
    now rewrite Hf. }
  unfold get_constrained_prior_samples, get_constrained_prior_neff,
    the_archive.
  rewrite Ha. cbn [bind]. rewrite Hsel.
  destruct N; split; reflexivity.
Qed.

(** X1.  What [_gen_new_samples] returns.  There are at most as many
    samples as seeds.  With one slice step or more, every returned sample
    carries the oracle's value at its position, strictly above the
    threshold, and lies within bounds.  With no slice step the seeds come
    back as they are, with [-inf] for log-likelihood. *)
Theorem gen_new_samples_sound
    (eigvalsh : matrix -> list R) (inbound : point -> bool)
    (logl_fn : point -> R) (X_seeds : list point) (logl_th : xreal)
    (num_steps : nat) (max_step_size : R) (samples_per_slice : nat)
    (Lchol : option matrix) (g g' : rng) (cands : list candidate) :
  _gen_new_samples eigvalsh inbound logl_fn X_seeds logl_th num_steps
    max_step_size samples_per_slice Lchol g = Ok (cands, g') ->
  (length cands <= length X_seeds)%nat /\
  ((1 <= num_steps)%nat ->
   Forall (fun c => snd c = Some (logl_fn (fst c)) /\
                    above logl_th (logl_fn (fst c)) /\
                    inbound (fst c) = true) cands) /\
  (num_steps = O -> cands = map (fun x => (x, None)) X_seeds).
Proof. apply gen_new_samples_returned. Qed.

(** ** What [generate_constrained_prior_samples] returns *)

Lemma batches_loop_returned (eigvalsh : matrix -> list R)
    (self : NestedSampler) (logl_fn : point -> R) (X_seeds : list point)
    (min_logl : xreal) (batch_size num_steps : nat) (batches : list nat) :
  forall g g' Xs Ls,
    batches_loop eigvalsh self logl_fn X_seeds min_logl batch_size num_steps
      batches g = Ok (Xs, Ls, g') ->
    length Xs = length batches /\
    length Ls = length batches /\
    length (concat Xs) = length (concat Ls) /\
    (length (concat Xs) <= length batches * batch_size)%nat /\
    ((1 <= num_steps)%nat ->
     Forall2 (fun x l => l = Some (logl_fn x) /\
                         above min_logl (logl_fn x) /\
                         _inbound self x = true)
             (concat Xs) (concat Ls)).
Proof.
  induction batches as [ | i rest IH]; intros g g' Xs Ls H;
    cbn [batches_loop] in H.
  - injection H as <- <- _. simpl. repeat split; auto; constructor.
  - inv_bind H as r E. destruct r as [new g1].
    inv_bind H as r' E'. destruct r' as [[Xs' Ls'] g2].
    injection H as <- <- _.
    destruct (IH _ _ _ _ E') as (HlX & HlL & Hcc & Hle & Hall).
    destruct (gen_new_samples_returned _ _ _ _ _ _ _ _ _ _ _ _ E)
      as (Hlen & Hacc & _).
    assert (Hb : (length new <= batch_size)%nat).
    { eapply Nat.le_trans; [ exact Hlen | ]. apply firstn_le_length. }
    cbn [concat length]. rewrite !length_app, !length_map.
    split; [ now rewrite HlX | ].
    split; [ now rewrite HlL | ].
    split; [ now rewrite Hcc | ].
    split.
    { rewrite Nat.mul_succ_l, (Nat.add_comm (length rest * batch_size)).
      apply Nat.add_le_mono; assumption. }
    intros Hs. apply Forall2_app; [ | now apply Hall ].
    specialize (Hacc Hs). clear -Hacc.
    induction Hacc as [ | [x l] new (H1 & H2 & H3) _ IHn]; simpl;
      constructor; auto.
Qed.

(** X14.  When [generate_constrained_prior_samples] returns, the request
    was for at least one full batch, positions and log-likelihoods come in
    equal number, no more than the whole batches of the request hold, and,
    with one slice step or more, every returned position is within bounds
    and carries the oracle's value, strictly above [min_logl]. *)
Theorem generate_constrained_prior_samples_sound
    (eigvalsh : matrix -> list R) (self : NestedSampler)
    (logl_fn : point -> R) (N : nat) (min_logl : xreal)
    (batch_size num_steps : nat) (g g' : rng)
    (X : list point) (L : list (option R)) :
  generate_constrained_prior_samples eigvalsh self logl_fn N min_logl
    batch_size num_steps g = Ok (X, L, g') ->
  (1 <= batch_size <= N)%nat /\
  length L = length X /\
  (length X <= N / batch_size * batch_size)%nat /\
  (length X <= N)%nat /\
  ((1 <= num_steps)%nat ->
   Forall2 (fun x l => l = Some (logl_fn x) /\
                       above min_logl (logl_fn x) /\
                       _inbound self x = true) X L).
Proof.
  unfold generate_constrained_prior_samples. intros H.
  inv_bind H as r Es. destruct r as [[X_seeds Lseeds] g1].
  inv_bind H as Lchol EL.
  destruct (Nat.eqb_spec batch_size 0) as [ | Hbs]; [ discriminate | ].
  inv_bind H as r Eb. destruct r as [[Xs Ls] g2].
  destruct (batches_loop_returned _ _ _ _ _ _ _ _ _ _ _ _ Eb)
    as (HlX & HlL & Hcc & Hle & Hall).
  rewrite length_seq in HlX, HlL, Hle.
  destruct Xs as [ | xs Xs]; [ discriminate | ].
  destruct Ls as [ | ls Ls]; [ simpl in HlL, HlX; lia | ].
  cbn [torch_cat bind] in H. injection H as <- <- _.
  assert (Hdiv : (N / batch_size <> 0)%nat).
  { rewrite <- HlX. discriminate. }
  assert (Hge : (batch_size <= N)%nat).
  { destruct (Nat.lt_ge_cases N batch_size) as [Hlt | ]; [ | assumption ].
    rewrite Nat.div_small in Hdiv by exact Hlt. contradiction. }
  pose proof (Nat.Div0.mul_div_le N batch_size) as Hmul.
  rewrite Nat.mul_comm in Hmul.
  split; [ split; [ | exact Hge ] | ].
  { destruct batch_size; [ contradiction | apply le_n_S, Nat.le_0_l ]. }
  split; [ now symmetry | ].
  split; [ exact Hle | ].
  split; [ eapply Nat.le_trans; [ exact Hle | exact Hmul ] | exact Hall ].
Qed.

(** X4.  When the live log-likelihoods start as the oracle's values at the
    live points (as they do when no [L_init] is given) and the live points
    start within bounds, a run keeps both: the final live points are within
    bounds and carry the oracle's values, and so do the archived points with
    their archived log-likelihoods. *)
Theorem nested_sampling_points_sound
    (eigvalsh : matrix -> list R) (logl_fn : point -> R)
    (self self' : NestedSampler) (args : ns_args) (g g' : rng) :
  L_live self = None \/ L_live self = Some (map logl_fn (X_live self)) ->
  Forall (fun x => _inbound self x = true) (X_live self) ->
  nested_sampling eigvalsh logl_fn self args g = Ok (self', g') ->
  Forall (fun x => _inbound self x = true) (X_live self') /\
  L_live self' = Some (map logl_fn (X_live self')) /\
  exists a,
    archive self' = Some a /\
    Forall (fun x => _inbound self x = true) (samples_X a) /\
    samples_logl a = map logl_fn (samples_X a).
Proof. apply nested_sampling_points_preserved. Qed.

(** ** Construction *)

Lemma inbound_unitcube_spec (x : point) :
  _inbound_unitcube x = true <-> Forall (fun c => 0 <= c <= 1) x.
Proof.
  unfold _inbound_unitcube. rewrite andb_true_iff, !forallb_forall,
    Forall_forall.
  split.
  - intros [H1 H0] c Hc. split.
    + apply Rleb_spec. now apply H0.
    + apply Rleb_spec. now apply H1.
  - intros H. split; intros c Hc; apply Rleb_spec; apply (H c Hc).
Qed.

(** X15.  [__init__].  A bound that is neither ["unitcube"] nor a callable
    is a [KeyError].  With a known bound the sampler is built exactly when
    every initial point satisfies it, the live points being a copy of the
    initial ones and no archive existing yet; otherwise the assertion
    fails.  The default bound holds of a point exactly when all its
    coordinates are in [0, 1]. *)
Theorem NestedSampler_init_spec
    (X0 : list point) (L_init : option (list R)) :
  NestedSampler_init X0 L_init OtherBound = Err KeyError /\
  (forall bound inb,
      (bound = Unitcube /\ inb = _inbound_unitcube) \/ bound = Callable inb ->
      (Forall (fun x => inb x = true) X0 ->
       NestedSampler_init X0 L_init bound
       = Ok (mkSampler X0 X0 L_init inb None)) /\
      (~ Forall (fun x => inb x = true) X0 ->
       NestedSampler_init X0 L_init bound = Err AssertionError)) /\
  (forall x, _inbound_unitcube x = true <-> Forall (fun c => 0 <= c <= 1) x).
Proof.
  split; [ reflexivity | ].
  split; [ | exact inbound_unitcube_spec ].
  intros bound inb Hb.
  assert (E : NestedSampler_init X0 L_init bound
              = if forallb inb X0 then Ok (mkSampler X0 X0 L_init inb None)
                else Err AssertionError).
  { destruct Hb as [[-> ->] | ->]; reflexivity. }
  rewrite E. split.
  - intros H. rewrite Forall_forall in H.
    assert (Hf : forallb inb X0 = true) by (apply forallb_forall; exact H).
    now rewrite Hf.
  - intros H. destruct (forallb inb X0) eqn:Hf; [ | reflexivity ].
    exfalso. apply H. apply Forall_forall. now apply forallb_forall.
Qed.

(** X16.  A sampler built on the unit cube without initial
    log-likelihoods stays sound through a run: the live points and the
    archived points have all their coordinates in [0, 1], and the live and
    archived log-likelihoods are the oracle's values at those points. *)
Theorem constructed_sampler_run_sound
    (eigvalsh : matrix -> list R) (logl_fn : point -> R) (X0 : list point)
    (s s' : NestedSampler) (args : ns_args) (g g' : rng) :
  NestedSampler_init X0 None Unitcube = Ok s ->
  nested_sampling eigvalsh logl_fn s args g = Ok (s', g') ->
  Forall (Forall (fun c => 0 <= c <= 1)) (X_live s') /\
  L_live s' = Some (map logl_fn (X_live s')) /\
  exists a,
    archive s' = Some a /\
    Forall (Forall (fun c => 0 <= c <= 1)) (samples_X a) /\
    samples_logl a = map logl_fn (samples_X a).
Proof.
  intros Hinit Hrun. unfold NestedSampler_init in Hinit. cbn [bind] in Hinit.
  destruct (forallb _inbound_unitcube X0) eqn:Hf; [ | discriminate ].
  injection Hinit as <-.
  assert (HX0 : Forall (fun x => _inbound_unitcube x = true) X0)
    by (apply Forall_forall; now apply forallb_forall).
  destruct (nested_sampling_points_preserved eigvalsh logl_fn
              (mkSampler X0 X0 None _inbound_unitcube None) s' args g g'
              (or_introl eq_refl) HX0 Hrun)
    as (HX & HL & a & Ha & HaX & HaL).
  cbn [_inbound] in HX, HaX.
  split; [ | split; [ exact HL | ] ].
  - eapply Forall_impl; [ | exact HX ]. intros x. apply inbound_unitcube_spec.
  - exists a. split; [ exact Ha | ]. split; [ | exact HaL ].
    eapply Forall_impl; [ | exact HaX ]. intros x. apply inbound_unitcube_spec.
Qed.

(** ** Directions and slice offsets *)

Lemma firstn_skipn_app_exact {A : Type} (a b : list A) :
  firstn (length a) (a ++ b) = a /\ skipn (length a) (a ++ b) = b.
Proof.
  induction a as [ | x a [IH1 IH2]]; simpl; [ | rewrite IH1 ]; auto.
Qed.

Lemma rows_of_seq (f : nat -> R) (B D : nat) :
  forall s,
    rows_of B D (map f (seq s (B * D)))
    = map (fun i => map f (seq (s + i * D) D)) (seq 0 B).
Proof.
  induction B as [ | B IH]; intros s; [ reflexivity | ].
  cbn [rows_of]. rewrite Nat.mul_succ_l, (Nat.add_comm (B * D) D).
  rewrite seq_app, map_app.
  assert (Hlen : length (map f (seq s D)) = D)
    by (now rewrite length_map, length_seq).
  destruct (firstn_skipn_app_exact (map f (seq s D))
              (map f (seq (s + D) (B * D)))) as [H1 H2].
  rewrite Hlen in H1, H2. rewrite H1, H2, IH.
  cbn [seq map]. rewrite Nat.add_0_r. f_equal.
  rewrite <- seq_shift, map_map. apply map_ext. intros i.
  f_equal. f_equal. simpl. lia.
Qed.

Lemma nth_map_seq {A : Type} (f : nat -> A) (d : A) (B i : nat) :
  (i < B)%nat -> nth i (map f (seq 0 B)) d = f i.
Proof.
  intros Hi. rewrite (nth_indep _ d (f O))
    by (now rewrite length_map, length_seq).
  rewrite (map_nth f (seq 0 B) O i). now rewrite seq_nth.
Qed.

Lemma map_seq_offset {A : Type} (f : nat -> A) (n : nat) :
  forall s, map f (seq s n) = map (fun k => f (s + k)%nat) (seq 0 n).
Proof.
  induction n as [ | n IH]; intros s; [ reflexivity | ].
  cbn [seq map]. rewrite Nat.add_0_r. f_equal.
  rewrite IH, <- seq_shift, map_map. apply map_ext. intros k.
  f_equal. lia.
Qed.

Lemma sum_squares_scaled (t : list R) (l : R) :
  l <> 0 ->
  tensor_sum (map (fun x => x ^ 2) (map (fun x => x / l) t))
  = tensor_sum (map (fun x => x ^ 2) t) / (l * l).
Proof.
  intros Hl. unfold tensor_sum. induction t as [ | x t IH]; cbn [map fold_right].
  - field. exact Hl.
  - rewrite IH. field. exact Hl.
Qed.

Lemma sum_squares_nonneg (t : list R) :
  0 <= tensor_sum (map (fun x => x ^ 2) t).
Proof.
  unfold tensor_sum. induction t as [ | x t IH]; cbn [map fold_right];
    [ lra | ].
  pose proof (pow2_ge_0 x) as Hx. lra.
Qed.

Lemma unit_direction_norm (t : point) :
  tensor_sum (map (fun x => x ^ 2) t) <> 0 ->
  tensor_sum (map (fun x => x ^ 2) (unit_direction t)) = 1.
Proof.
  intros Hne. unfold unit_direction.
  pose proof (sum_squares_nonneg t) as Hge.
  set (s := tensor_sum (map (fun x => x ^ 2) t)) in *.
  assert (Hs : sqrt s * sqrt s = s) by (apply sqrt_sqrt; exact Hge).
  assert (Hl : sqrt s <> 0).
  { intros E. rewrite E in Hs. lra. }
  rewrite sum_squares_scaled by exact Hl. fold s. rewrite Hs.
  field. exact Hne.
Qed.

(** X17.  [_get_directions] returns [B] rows of [D] coordinates, row [i]
    being the [i]-th block of [D] normal draws divided by its Euclidean
    norm: a vector of norm one whenever the block is not all zeros.  The
    generator has moved past [B * D] normal draws and nothing else. *)
Theorem get_directions_unit_vectors (B D : nat) (g : rng) :
  length (fst (_get_directions B D g)) = B /\
  snd (_get_directions B D g)
  = mkRng (randn_tape g) (rand_tape g) (choice_tape g)
          (randn_pos g + B * D) (rand_pos g) (choice_pos g) /\
  forall i, (i < B)%nat ->
    let t := map (fun k => randn_tape g (randn_pos g + (i * D + k)))
                 (seq 0 D) in
    let n := nth i (fst (_get_directions B D g)) [] in
    n = unit_direction t /\
    length n = D /\
    (tensor_sum (map (fun x => x ^ 2) t) <> 0 ->
     tensor_sum (map (fun x => x ^ 2) n) = 1).
Proof.
  split; [ apply get_directions_length | ].
  split; [ reflexivity | ].
  intros i Hi t n.
  assert (Hn : n = unit_direction t).
  { unfold n, _get_directions, torch_randn. cbn [fst].
    rewrite (rows_of_seq (fun k => randn_tape g (randn_pos g + k)) B D 0).
    rewrite map_map, nth_map_seq by exact Hi. cbn [Nat.add].
    f_equal. unfold t. rewrite map_seq_offset.
    apply map_ext. intros k. f_equal. }
  split; [ exact Hn | ].
  split.
  - rewrite Hn. unfold unit_direction, t. now rewrite !length_map, length_seq.
  - intros Hne. rewrite Hn. now apply unit_direction_norm.
Qed.

Lemma shrinking_app (t : list R) (x : R) :
  shrinking t ->
  Forall (fun y => (y < 0 -> y <= x) /\ (0 < y -> x <= y)) t ->
  shrinking (t ++ [x]).
Proof.
  intros Hs Hall i j Hij Hj. rewrite length_app in Hj. simpl in Hj.
  rewrite (app_nth1 t [x] 0 (n := i)) by lia.
  destruct (Nat.lt_ge_cases j (length t)) as [Hjl | Hjl].
  - rewrite (app_nth1 t [x] 0 Hjl). now apply Hs.
  - replace j with (length t) by lia.
    rewrite app_nth2, Nat.sub_diag by lia. cbn [nth].
    rewrite Forall_forall in Hall. apply Hall. apply nth_In. lia.
Qed.

Lemma slice_draw_inv (u : R) (b : bracket) :
  0 <= u <= 1 -> bracket_inv b -> bracket_inv (slice_draw u b).
Proof.
  intros Hu ((Hlo & Hhi) & Hoff & Hshr). unfold slice_draw.
  set (x := u * (hi b - lo b) + lo b).
  assert (Hx : lo b <= x <= hi b) by (unfold x; nra).
  rewrite Forall_forall in Hoff.
  split; [ | split ]; cbn [lo hi offsets].
  - destruct (Rlt_dec x 0), (Rlt_dec 0 x); lra.
  - apply Forall_app. split.
    + apply Forall_forall. intros y Hy. destruct (Hoff y Hy) as (Hy1 & Hy2 & Hy3).
      split; [ exact Hy1 | ].
      split; intros Hsgn.
      * specialize (Hy2 Hsgn). destruct (Rlt_dec x 0); lra.
      * specialize (Hy3 Hsgn). destruct (Rlt_dec 0 x); lra.
    + constructor; [ | constructor ].
      split; [ lra | ].
      split; intros Hsgn.
      * destruct (Rlt_dec x 0); lra.
      * destruct (Rlt_dec 0 x); lra.
  - apply shrinking_app; [ exact Hshr | ].
    apply Forall_forall. intros y Hy. destruct (Hoff y Hy) as (_ & Hy2 & Hy3).
    split; intros Hsgn; [ specialize (Hy2 Hsgn) | specialize (Hy3 Hsgn) ]; lra.
Qed.

Lemma slice_loop_inv (S B : nat) :
  forall (chains : list bracket) (g : rng),
    (forall k, 0 <= rand_tape g k <= 1) ->
    Forall bracket_inv chains ->
    Forall bracket_inv (fst (slice_loop S B chains g)).
Proof.
  induction S as [ | S IH]; intros chains g Hu Hall; cbn [slice_loop].
  - exact Hall.
  - unfold torch_rand. apply IH; [ exact Hu | ].
    apply Forall_forall. intros b Hb. apply in_map_iff in Hb.
    destruct Hb as ([u b0] & <- & Hin). cbn [fst snd].
    apply slice_draw_inv.
    + apply in_combine_l in Hin. apply in_map_iff in Hin.
      destruct Hin as (k & <- & _). apply Hu.
    + apply in_combine_r in Hin. rewrite Forall_forall in Hall.
      now apply Hall.
Qed.

(** X18.  [_get_slice_sample_points] with uniform draws in [0, 1]: [B]
    rows of [S] offsets, every offset in [-1, 1], and in every row the
    bracket only shrinks: an offset on the negative side is a lower bound of
    all the offsets drawn after it, one on the positive side an upper
    bound. *)
Theorem get_slice_sample_points_shrink (B S : nat) (g : rng) :
  (forall k, 0 <= rand_tape g k <= 1) ->
  length (fst (_get_slice_sample_points B S g)) = B /\
  Forall (fun row =>
            length row = S /\
            Forall (fun x => -1 <= x <= 1) row /\
            shrinking row)
         (fst (_get_slice_sample_points B S g)).
Proof.
  intros Hu.
  destruct (get_slice_sample_points_shape B S g) as [Hlen Hrows].
  split; [ exact Hlen | ].
  assert (Hinv : Forall bracket_inv
                   (fst (slice_loop S B (repeat (mkBracket (-1) 1 []) B) g))).
  { apply slice_loop_inv; [ exact Hu | ].
    apply Forall_forall. intros b Hb. apply repeat_spec in Hb. subst b.
    split; [ cbn; lra | ].
    split; [ constructor | ].
    intros i j _ Hj. simpl in Hj. lia. }
  unfold _get_slice_sample_points in *.
  destruct (slice_loop S B (repeat (mkBracket (-1) 1 []) B) g)
    as [chains g'].
  cbn [fst] in *.
  rewrite Forall_forall in Hrows, Hinv.
  apply Forall_forall. intros row Hrow.
  split; [ now apply Hrows | ].
  apply in_map_iff in Hrow. destruct Hrow as (b & <- & Hb).
  destruct (Hinv b Hb) as (_ & Hoff & Hshr).
  split; [ | exact Hshr ].
  eapply Forall_impl; [ | exact Hoff ]. intros x Hx. apply Hx.
Qed.

(** ** The whitener on covariance matrices *)










(** ** The further properties on the small samplers *)

Lemma gen_new_samples_sound_demo :
  exists L g2,
    _gen_new_samples eigvalsh_2x2 _inbound_unitcube demo_logl [[1; 0]]
      (Fin 0) 1 1 1 (Some L) (snd (np_random_choice 3 1 demo_rng))
    = Ok ([([1; 0], Some 1)], g2) /\
    (length [([1; 0], Some 1)] <= length [[1; 0]])%nat /\
    ((1 <= 1)%nat ->
     Forall (fun c : candidate =>
               snd c = Some (demo_logl (fst c)) /\
               above (Fin 0) (demo_logl (fst c)) /\
               _inbound_unitcube (fst c) = true)
            [([1; 0], Some 1)]) /\
    (1%nat = O ->
     [([1; 0], Some 1)] = map (fun x => (x, None)) [[1; 0]]).
Proof.
  destruct demo_Lchol as (L & _ & Hlen).
  destruct (demo_gen L Hlen) as (g2 & Hgen).
  exists L, g2. split; [ exact Hgen | ].
  exact (gen_new_samples_sound eigvalsh_2x2 _inbound_unitcube demo_logl
           [[1; 0]] (Fin 0) 1 1 1 (Some L)
           (snd (np_random_choice 3 1 demo_rng)) g2 [([1; 0], Some 1)] Hgen).
Defined.

Lemma nested_sampling_keeps_shape_demo :
  exists self' g',
    nested_sampling eigvalsh_2x2 demo_logl demo_self demo_args demo_rng
    = Ok (self', g') /\
    X_init self' = X_init demo_self /\
    length (X_live self') = length (X_live demo_self) /\
    (exists L', L_live self' = Some L' /\
                length L'
                = length (run_L_live (initial_state demo_logl demo_self))) /\
    exists a,
      archive self' = Some a /\
      length (samples_logv a) = length (samples_X a) /\
      length (samples_logl a) = length (samples_X a) /\
      length (samples_logwt a) = length (samples_X a).
Proof.
  destruct demo_run as (self' & g' & Hrun & _).
  exists self', g'. split; [ exact Hrun | ].
  exact (nested_sampling_keeps_shape eigvalsh_2x2 demo_logl demo_self self'
           demo_args demo_rng g' Hrun).
Defined.

Lemma nested_sampling_archive_ordered_demo :
  exists self' g',
    nested_sampling eigvalsh_2x2 demo_logl demo_self demo_args demo_rng
    = Ok (self', g') /\
    exists a L',
      archive self' = Some a /\ L_live self' = Some L' /\
      nondecreasing (samples_logl a) /\
      forall m l, tensor_min L' = Ok m -> In l (samples_logl a) -> l <= m.
Proof.
  destruct demo_run as (self' & g' & Hrun & _).
  exists self', g'. split; [ exact Hrun | ].
  exact (nested_sampling_archive_ordered eigvalsh_2x2 demo_logl demo_self
           self' demo_args demo_rng g' Hrun).
Defined.

Lemma demo_logl_values : [0; 1; 1] = map demo_logl demo_X.
Proof.
  unfold demo_logl, demo_X. cbn [map nth].
  repeat (f_equal; try lra).
Qed.

Lemma demo_X_inbound :
  Forall (fun x => _inbound_unitcube x = true) demo_X.
Proof.
  unfold demo_X.
  repeat (constructor; [ apply inbound_unitcube_spec;
                         repeat (constructor; [ lra | ]); constructor | ]).
  constructor.
Qed.

Lemma nested_sampling_points_sound_demo :
  exists self' g',
    nested_sampling eigvalsh_2x2 demo_logl demo_self demo_args demo_rng
    = Ok (self', g') /\
    Forall (fun x => _inbound demo_self x = true) (X_live self') /\
    L_live self' = Some (map demo_logl (X_live self')) /\
    exists a,
      archive self' = Some a /\
      Forall (fun x => _inbound demo_self x = true) (samples_X a) /\
      samples_logl a = map demo_logl (samples_X a).
Proof.
  destruct demo_run as (self' & g' & Hrun & _).
  exists self', g'. split; [ exact Hrun | ].
  exact (nested_sampling_points_sound eigvalsh_2x2 demo_logl demo_self self'
           demo_args demo_rng g'
           (or_intror (f_equal Some demo_logl_values))
           demo_X_inbound Hrun).
Defined.

Lemma nested_sampling_threshold_reached_demo :
  exists g',
    nested_sampling eigvalsh_2x2 demo_logl demo_self early_args demo_rng
    = Ok (mkSampler (X_init demo_self) (X_live demo_self)
            (Some (run_L_live (initial_state demo_logl demo_self)))
            (_inbound demo_self) (Some (mkArchive [] [] [] [])), g').
Proof.
  apply (nested_sampling_threshold_reached eigvalsh_2x2 demo_logl demo_self
           early_args demo_rng 0).
  - simpl. lia.
  - exact demo_min.
  - simpl. apply Rltb_spec. lra.
Defined.

Lemma nested_sampling_needs_two_points_demo :
  exists e,
    nested_sampling eigvalsh_2x2 demo_logl lone_self demo_args demo_rng
    = Err e /\
    (e = EmptyReduction \/ e = ShapeError \/ e = LinAlgError).
Proof.
  apply (nested_sampling_needs_two_points eigvalsh_2x2 demo_logl lone_self
           demo_args demo_rng).
  - simpl. lia.
  - simpl. lia.
  - intros m _. reflexivity.
Defined.

Lemma line_min : tensor_min [0; 1] = Ok 0.
Proof. simpl. f_equal. apply Rmin_left. lra. Qed.

Lemma nested_sampling_rejects_one_dimension_demo :
  nested_sampling eigvalsh_2x2 demo_logl line_self demo_args demo_rng
  = Err ShapeError.
Proof.
  apply (nested_sampling_rejects_one_dimension eigvalsh_2x2 demo_logl
           line_self demo_args demo_rng 0).
  - reflexivity.
  - simpl. lia.
  - exact line_min.
  - reflexivity.
Defined.

Lemma evidence_is_sum_of_weights_demo :
  exists st g',
    ns_loop eigvalsh_2x2 demo_logl demo_self demo_args 1
      (length (X_live demo_self)) 1 (initial_state demo_logl demo_self)
      demo_rng = Ok (st, g') /\
    length (run_samples_logwt st) = 1%nat /\
    run_samples_Z st = map exp (run_samples_logwt st) /\
    run_Z st = tensor_sum (map exp (run_samples_logwt st)) /\
    0 <= run_Z st.
Proof.
  destruct demo_run as (self' & g' & Hrun & Ha & _).
  destruct (nested_sampling_final eigvalsh_2x2 demo_logl demo_self self'
              demo_args demo_rng g' Hrun) as (st & Hloop & Hself).
  exists st, g'. split; [ exact Hloop | ].
  split.
  - rewrite Hself in Ha. cbn [archive] in Ha. injection Ha as _ _ _ Hw.
    now rewrite Hw.
  - exact (evidence_is_sum_of_weights eigvalsh_2x2 demo_logl demo_self
             demo_args 1 1 st demo_rng g' Hloop).
Defined.


Lemma spread_rng_uniform (k : nat) :
  0 <= rand_tape spread_rng (rand_pos spread_rng + k) < 1.
Proof.
  unfold spread_rng. cbn [rand_tape rand_pos Nat.add].
  destruct k as [ | [ | k]]; lra.
Qed.

Lemma get_posterior_samples_returns_records_demo :
  exists idx,
    length idx = 3%nat /\
    Forall (fun i => (i < 3)%nat) idx /\
    get_posterior_samples archived_self (Some 3%nat) spread_rng =
    Ok (map (fun i => nth i demo_X []) idx,
        map (fun i => nth i [0; 1; 1] 0) idx,
        snd (torch_rand 3 spread_rng)).
Proof.
  apply (get_posterior_samples_returns_records archived_self
           (mkArchive demo_X [0; 0; 0] [0; 1; 1] [0; 0; 0]) 3 spread_rng).
  - reflexivity.
  - discriminate.
  - reflexivity.
  - reflexivity.
  - lia.
  - intros k _. apply spread_rng_uniform.
Defined.


Lemma get_constrained_prior_samples_above_cut_demo :
  exists g1,
    get_constrained_prior_samples archived_self (Some 3%nat) NegInf spread_rng
    = Ok (demo_X, [0; 1; 1], g1) /\
    length demo_X = 3%nat /\ length [0; 1; 1] = 3%nat /\
    Forall (fun x => In x demo_X) demo_X /\
    Forall (fun l => In l [0; 1; 1] /\ xleb NegInf (Fin l) = true) [0; 1; 1].
Proof.
  destruct archived_seeds as (g1 & Hseeds).
  exists g1. split; [ exact Hseeds | ].
  exact (get_constrained_prior_samples_above_cut archived_self
           (mkArchive demo_X [0; 0; 0] [0; 1; 1] [0; 0; 0]) 3 NegInf
           spread_rng g1 demo_X [0; 1; 1] eq_refl Hseeds).
Defined.

Lemma cut_above_archive :
  Forall (fun l => xleb (Fin 2) (Fin l) = false) [0; 1; 1].
Proof.
  assert (H : forall l, l < 2 -> xleb (Fin 2) (Fin l) = false).
  { intros l Hl. unfold xleb. cbn [xltb].
    apply negb_false_iff. apply Rltb_spec. exact Hl. }
  repeat (constructor; [ apply H; lra | ]). constructor.
Qed.

Lemma get_constrained_prior_samples_empty_cut_demo :
  get_constrained_prior_samples archived_self (Some 3%nat) (Fin 2) spread_rng
  = Err EmptyReduction /\
  get_constrained_prior_neff archived_self (Fin 2) = Err EmptyReduction.
Proof.
  exact (get_constrained_prior_samples_empty_cut archived_self
           (mkArchive demo_X [0; 0; 0] [0; 1; 1] [0; 0; 0]) (Some 3%nat)
           (Fin 2) spread_rng eq_refl cut_above_archive).
Defined.

(** A request the size of one batch on [archived_self] goes through. *)
Lemma archived_generate :
  exists X L g',
    generate_constrained_prior_samples eigvalsh_2x2 archived_self demo_logl
      3 NegInf 3 1 spread_rng = Ok (X, L, g').
Proof.
  destruct archived_seeds as (g1 & Hseeds).
  destruct demo_Lchol as (Lc & HL & _).
  destruct (gen_new_samples_returns eigvalsh_2x2 _inbound_unitcube demo_logl
              demo_X NegInf 1 1 5 Lc g1) as ([new g2] & Hgen);
    [ discriminate | discriminate | ].
  assert (Hgen' :
    _gen_new_samples eigvalsh_2x2 _inbound_unitcube demo_logl demo_X NegInf
      1 1 5 None g1 = Ok (new, g2)).
  { unfold _gen_new_samples, whitening_factor in *. now rewrite HL. }
  exists (concat [map fst new]), (concat [map snd new]), g2.
  unfold generate_constrained_prior_samples.
  rewrite Hseeds. cbn [bind]. rewrite HL. cbn [bind Nat.eqb].
  change (3 / 3)%nat with 1%nat.
  cbn [seq batches_loop Nat.mul skipn].
  change (firstn 3 demo_X) with demo_X.
  change (_inbound archived_self) with _inbound_unitcube.
  rewrite Hgen'. reflexivity.
Qed.

Lemma generate_constrained_prior_samples_sound_demo :
  exists X L g',
    generate_constrained_prior_samples eigvalsh_2x2 archived_self demo_logl
      3 NegInf 3 1 spread_rng = Ok (X, L, g') /\
    (1 <= 3 <= 3)%nat /\
    length L = length X /\
    (length X <= 3 / 3 * 3)%nat /\
    (length X <= 3)%nat /\
    ((1 <= 1)%nat ->
     Forall2 (fun x l => l = Some (demo_logl x) /\
                         above NegInf (demo_logl x) /\
                         _inbound archived_self x = true) X L).
Proof.
  destruct archived_generate as (X & L & g' & Hrun).
  exists X, L, g'. split; [ exact Hrun | ].
  exact (generate_constrained_prior_samples_sound eigvalsh_2x2 archived_self
           demo_logl 3 NegInf 3 1 spread_rng g' X L Hrun).
Defined.

(** The run of [demo_run], started from the sampler [__init__] builds. *)
Lemma fresh_run :
  exists s' g',
    nested_sampling eigvalsh_2x2 demo_logl fresh_self demo_args demo_rng
    = Ok (s', g').
Proof.
  destruct demo_run as (self' & g' & Hrun & _).
  exists self', g'. rewrite <- Hrun.
  unfold nested_sampling.
  change (length (X_live fresh_self)) with (length (X_live demo_self)).
  assert (Hst : initial_state demo_logl fresh_self
                = initial_state demo_logl demo_self).
  { unfold initial_state, fresh_self, demo_self.
    cbn [X_live L_live]. now rewrite <- demo_logl_values. }
  rewrite Hst. reflexivity.
Qed.

Lemma constructed_sampler_run_sound_demo :
  exists s' g',
    NestedSampler_init demo_X None Unitcube = Ok fresh_self /\
    nested_sampling eigvalsh_2x2 demo_logl fresh_self demo_args demo_rng
    = Ok (s', g') /\
    Forall (Forall (fun c => 0 <= c <= 1)) (X_live s') /\
    L_live s' = Some (map demo_logl (X_live s')) /\
    exists a,
      archive s' = Some a /\
      Forall (Forall (fun c => 0 <= c <= 1)) (samples_X a) /\
      samples_logl a = map demo_logl (samples_X a).
Proof.
  destruct fresh_run as (s' & g' & Hrun).
  assert (Hinit : NestedSampler_init demo_X None Unitcube = Ok fresh_self).
  { unfold NestedSampler_init. cbn [bind].
    assert (Hf : forallb _inbound_unitcube demo_X = true).
    { apply forallb_forall. apply Forall_forall. exact demo_X_inbound. }
    now rewrite Hf. }
  exists s', g'. split; [ exact Hinit | ]. split; [ exact Hrun | ].
  exact (constructed_sampler_run_sound eigvalsh_2x2 demo_logl demo_X
           fresh_self s' demo_args demo_rng g' Hinit Hrun).
Defined.

Lemma get_slice_sample_points_shrink_demo :
  length (fst (_get_slice_sample_points 2 3 spread_rng)) = 2%nat /\
  Forall (fun row =>
            length row = 3%nat /\
            Forall (fun x => -1 <= x <= 1) row /\
            shrinking row)
         (fst (_get_slice_sample_points 2 3 spread_rng)).
Proof.
  apply (get_slice_sample_points_shrink 2 3 spread_rng).
  intros k. unfold spread_rng. cbn [rand_tape].
  destruct k as [ | [ | k]]; lra.
Defined.

